(** * SPEKE v2 verification test-suite helpers ([utils.py])

    A shallow embedding of the helper functions of
    [spekev2_verification_testsuite/utils.py] together with the parts of
    the Python runtime they lean on (byte strings, text as sequences of
    code points, [base64.b64decode], the UTF-8 codec, [str.replace],
    [re.match] for the one pattern used, [collections.Counter]).

    Python values are modelled as follows:
    - [bytes]   : a list of integers, each in [0, 256);
    - [str]     : a list of Unicode code points (integers);
    - [dict]    : a finite map ([gmap]) from keys to values;
    - a call that may raise: a value of type [result _]. *)

From Stdlib Require Import ZArith Lia List Ascii String Bool.
From stdpp Require Import gmap list fin_maps.

Local Open Scope Z_scope.
Set Warnings "-register-all".

(** ** Exceptions and the error monad *)

Module Py.

(** The exception classes that can leave the helpers of [utils.py]. *)
Inductive exception : Type :=
  | AttributeError        (* attribute access on [None] *)
  | binascii_Error        (* malformed base64 *)
  | UnicodeDecodeError    (* bytes that are not UTF-8 *)
  | UnicodeEncodeError    (* text that has no UTF-8 encoding *)
  | FileNotFoundError     (* [open] on a missing path *)
  | PermissionError       (* [open] on a file that may not be read *)
  | IsADirectoryError     (* [open] on a directory *)
  | ParseError            (* malformed XML *)
  | ValueError            (* raised by a collaborator *)
  | OtherError (code : Z) (* any other failure of a collaborator *).

Inductive result (A : Type) : Type :=
  | Ok (a : A)
  | Raise (e : exception).

Arguments Ok {A} a.
Arguments Raise {A} e.

Definition bind {A B} (r : result A) (k : A -> result B) : result B :=
  match r with
  | Ok a => k a
  | Raise e => Raise e
  end.

Definition rmap {A B} (f : A -> B) (r : result A) : result B :=
  bind r (fun a => Ok (f a)).

Definition returns {A} (r : result A) : bool :=
  match r with Ok _ => true | Raise _ => false end.

Definition raises {A} (r : result A) : bool := negb (returns r).

End Py.

Import Py.

Notation "'let*' x ':=' r 'in' k" := (Py.bind r (fun x => k))
  (at level 10, x name, r at level 100, k at level 200).

(** ** Byte strings and text *)

Definition bytes := list Z.
Definition codepoint := Z.
Definition str := list codepoint.

Definition is_byte (b : Z) : Prop := 0 <= b < 256.

(** A text literal: the code points of an ASCII string. *)
Fixpoint lit (s : string) : str :=
  match s with
  | EmptyString => []
  | String c s' => Z.of_N (N_of_ascii c) :: lit s'
  end.

(** ** [base64]: the standard alphabet, encoder and lenient decoder *)

Module Base64.

Definition BASE64_PAD : Z := 61.

(** [table_b2a_base64]: the character for a six-bit value. *)
Definition table_b2a_base64 (v : Z) : Z :=
  if v <? 26 then 65 + v
  else if v <? 52 then 97 + (v - 26)
  else if v <? 62 then 48 + (v - 52)
  else if v =? 62 then 43
  else 47.

(** [table_a2b_base64]: the six-bit value of a character, or 64 for a
    byte outside the alphabet. *)
Definition table_a2b_base64 (ch : Z) : Z :=
  if (65 <=? ch) && (ch <=? 90) then ch - 65
  else if (97 <=? ch) && (ch <=? 122) then ch - 97 + 26
  else if (48 <=? ch) && (ch <=? 57) then ch - 48 + 52
  else if ch =? 43 then 62
  else if ch =? 47 then 63
  else 64.

(** [base64.b64encode]: three bytes become four characters; a final
    group of one or two bytes is padded with [=]. *)
Fixpoint b64encode (data : bytes) : bytes :=
  match data with
  | [] => []
  | [a] =>
      [ table_b2a_base64 (Z.shiftr a 2);
        table_b2a_base64 (Z.shiftl (Z.land a 3) 4);
        BASE64_PAD; BASE64_PAD ]
  | [a; b] =>
      [ table_b2a_base64 (Z.shiftr a 2);
        table_b2a_base64 (Z.lor (Z.shiftl (Z.land a 3) 4) (Z.shiftr b 4));
        table_b2a_base64 (Z.shiftl (Z.land b 15) 2);
        BASE64_PAD ]
  | a :: b :: c :: rest =>
      table_b2a_base64 (Z.shiftr a 2)
      :: table_b2a_base64 (Z.lor (Z.shiftl (Z.land a 3) 4) (Z.shiftr b 4))
      :: table_b2a_base64 (Z.lor (Z.shiftl (Z.land b 15) 2) (Z.shiftr c 6))
      :: table_b2a_base64 (Z.land c 63)
      :: b64encode rest
  end.

(** The position inside the current group of four characters. *)
Inductive quad : Type := Q0 | Q1 | Q2 | Q3.

Definition quad_index (q : quad) : Z :=
  match q with Q0 => 0 | Q1 => 1 | Q2 => 2 | Q3 => 3 end.

(** [binascii.a2b_base64] without strict mode, the decoder behind
    [base64.b64decode(s)] when [validate] is left at its default.  The
    loop keeps the position in the quad, the bits left over from the
    previous character and the number of pad characters just seen.
    Bytes outside the alphabet are skipped; a pad sequence that
    completes a quad ends the decoding, whatever follows it. *)
Fixpoint a2b_base64 (data : bytes) (quad_pos : quad) (leftchar pads : Z)
  : result bytes :=
  match data with
  | [] =>
      match quad_pos with
      | Q0 => Ok []
      | _ => Raise binascii_Error
      end
  | this_ch :: rest =>
      if this_ch =? BASE64_PAD then
        if 2 <=? quad_index quad_pos then
          if 4 <=? quad_index quad_pos + (pads + 1) then Ok []
          else a2b_base64 rest quad_pos leftchar (pads + 1)
        else a2b_base64 rest quad_pos leftchar pads
      else
        let v := table_a2b_base64 this_ch in
        if 64 <=? v then a2b_base64 rest quad_pos leftchar pads
        else
          match quad_pos with
          | Q0 => a2b_base64 rest Q1 v 0
          | Q1 =>
              rmap (cons (Z.land (Z.lor (Z.shiftl leftchar 2) (Z.shiftr v 4)) 255))
                   (a2b_base64 rest Q2 (Z.land v 15) 0)
          | Q2 =>
              rmap (cons (Z.land (Z.lor (Z.shiftl leftchar 4) (Z.shiftr v 2)) 255))
                   (a2b_base64 rest Q3 (Z.land v 3) 0)
          | Q3 =>
              rmap (cons (Z.land (Z.lor (Z.shiftl leftchar 6) v) 255))
                   (a2b_base64 rest Q0 0 0)
          end
  end.

Definition b64decode (s : bytes) : result bytes := a2b_base64 s Q0 0 0.

(** A byte of the base64 alphabet. *)
Definition in_alphabet (ch : Z) : bool := table_a2b_base64 ch <? 64.

(** The characters of the alphabet in [s], in order. *)
Definition data_chars (s : bytes) : bytes := List.filter in_alphabet s.

(** The bytes the lenient decoder looks at: alphabet and pad. *)
Definition significant (ch : Z) : bool := in_alphabet ch || (ch =? BASE64_PAD).

(** Base64 as RFC 4648 defines it, and as [b64decode(s, validate=True)]
    accepts it: quads of alphabet characters, the last quad possibly
    ending in one or two pad characters, and nothing else. *)
Fixpoint valid_base64 (s : bytes) : bool :=
  match s with
  | [] => true
  | [a; b; c; d] =>
      in_alphabet a && in_alphabet b &&
      ((in_alphabet c && (in_alphabet d || (d =? BASE64_PAD)))
       || ((c =? BASE64_PAD) && (d =? BASE64_PAD)))
  | a :: b :: c :: d :: rest =>
      in_alphabet a && in_alphabet b && in_alphabet c && in_alphabet d
      && valid_base64 rest
  | _ => false
  end.

(** The number of alphabet characters of [s]. *)
Definition data_count (s : bytes) : Z := Z.of_nat (length (data_chars s)).

(** Base64 in the lenient sense, stated on the input alone.  Drop the
    bytes that are neither of the alphabet nor a pad.  What is left is
    well formed when its data characters fill whole quads, or when
    somewhere in it a pad follows three data characters of a quad, or
    two pads follow two data characters of a quad. *)
Definition lenient_base64 (s : bytes) : Prop :=
  let t := List.filter significant s in
  data_count t mod 4 = 0 \/
  exists p rest,
    t = p ++ BASE64_PAD :: rest /\
    (data_count p mod 4 = 3 \/
     (data_count p mod 4 = 2 /\ exists rest', rest = BASE64_PAD :: rest')).

(** The same for a decoder that is at position [n] of a quad and has
    seen [pads] pad characters since the last data character. *)
Definition accepts_from (n pads : Z) (t : bytes) : Prop :=
  (n + data_count t) mod 4 = 0 \/
  exists p rest,
    t = p ++ BASE64_PAD :: rest /\
    ((n + data_count p) mod 4 = 3 \/
     ((n + data_count p) mod 4 = 2 /\
      ((exists rest', rest = BASE64_PAD :: rest') \/ (p = [] /\ 1 <= pads)))).

End Base64.

(** ** The UTF-8 codec ([bytes.decode('utf-8')], [str.encode('utf-8')]) *)

Module Utf8.

(** A continuation byte [10xxxxxx]. *)
Definition is_cont (b : Z) : bool := (128 <=? b) && (b <=? 191).

Definition in_range (lo hi b : Z) : bool := (lo <=? b) && (b <=? hi).

(** The six payload bits of a continuation byte. *)
Definition cont_bits (b : Z) : Z := Z.land b 63.

(** [str.encode('utf-8')] on one character.  Surrogates have no
    encoding; integers outside the code space are not characters. *)
Definition encode_char (c : codepoint) : result bytes :=
  if c <? 0 then Raise UnicodeEncodeError
  else if c <? 128 then Ok [c]
  else if c <? 2048 then
    Ok [Z.lor 192 (Z.shiftr c 6); Z.lor 128 (Z.land c 63)]
  else if c <? 65536 then
    if in_range 55296 57343 c then Raise UnicodeEncodeError
    else Ok [Z.lor 224 (Z.shiftr c 12);
             Z.lor 128 (Z.land (Z.shiftr c 6) 63);
             Z.lor 128 (Z.land c 63)]
  else if c <? 1114112 then
    Ok [Z.lor 240 (Z.shiftr c 18);
        Z.lor 128 (Z.land (Z.shiftr c 12) 63);
        Z.lor 128 (Z.land (Z.shiftr c 6) 63);
        Z.lor 128 (Z.land c 63)]
  else Raise UnicodeEncodeError.

Fixpoint encode (s : str) : result bytes :=
  match s with
  | [] => Ok []
  | c :: s' =>
      let* b := encode_char c in
      let* bs := encode s' in
      Ok (b ++ bs)
  end.

(** [bytes.decode('utf-8')] with the default strict error handler: the
    well-formed byte sequences of the Unicode standard and nothing else
    (no overlong forms, no surrogates, nothing above U+10FFFF, no
    truncated sequence). *)
Fixpoint decode (data : bytes) : result str :=
  match data with
  | [] => Ok []
  | b0 :: r0 =>
      if in_range 0 127 b0 then rmap (cons b0) (decode r0)
      else if in_range 194 223 b0 then
        match r0 with
        | b1 :: r1 =>
            if is_cont b1 then
              rmap (cons (Z.lor (Z.shiftl (Z.land b0 31) 6) (cont_bits b1)))
                   (decode r1)
            else Raise UnicodeDecodeError
        | _ => Raise UnicodeDecodeError
        end
      else if in_range 224 239 b0 then
        match r0 with
        | b1 :: b2 :: r2 =>
            if in_range (if b0 =? 224 then 160 else 128)
                        (if b0 =? 237 then 159 else 191) b1
               && is_cont b2 then
              rmap (cons (Z.lor (Z.shiftl (Z.land b0 15) 12)
                            (Z.lor (Z.shiftl (cont_bits b1) 6) (cont_bits b2))))
                   (decode r2)
            else Raise UnicodeDecodeError
        | _ => Raise UnicodeDecodeError
        end
      else if in_range 240 244 b0 then
        match r0 with
        | b1 :: b2 :: b3 :: r3 =>
            if in_range (if b0 =? 240 then 144 else 128)
                        (if b0 =? 244 then 143 else 191) b1
               && is_cont b2 && is_cont b3 then
              rmap (cons (Z.lor (Z.shiftl (Z.land b0 7) 18)
                            (Z.lor (Z.shiftl (cont_bits b1) 12)
                               (Z.lor (Z.shiftl (cont_bits b2) 6) (cont_bits b3)))))
                   (decode r3)
            else Raise UnicodeDecodeError
        | _ => Raise UnicodeDecodeError
        end
      else Raise UnicodeDecodeError
  end.

(** The characters that have a UTF-8 encoding: the Unicode scalar
    values. *)
Definition scalar_value (c : codepoint) : Prop :=
  0 <= c <= 1114111 /\ ~ (55296 <= c <= 57343).

(** Valid UTF-8, stated without the decoder: the bytes are the encoding
    of some text. *)
Definition valid_utf8 (raw : bytes) : Prop :=
  exists T, encode T = Ok raw.

End Utf8.

(** ** The HLS tag decoder of [utils.py] *)

(** [decode_b64_bytes(text_in_bytes)]:
    [base64.b64decode(text_in_bytes).decode('utf-8')]. *)
Definition decode_b64_bytes (text_in_bytes : bytes) : result str :=
  let* raw := Base64.b64decode text_in_bytes in
  Utf8.decode raw.

(** ** [str] methods used by the helpers *)

Module Str.

(** [s.startswith(p)], returning what follows the prefix. *)
Fixpoint strip_prefix (p s : str) : option str :=
  match p, s with
  | [], _ => Some s
  | _ :: _, [] => None
  | x :: p', y :: s' => if x =? y then strip_prefix p' s' else None
  end.

Definition startswith (s p : str) : bool :=
  match strip_prefix p s with Some _ => true | None => false end.

(** The scan of [s.replace(old, new)] for a non-empty [old]: the text is
    read left to right; where [old] starts, [new] is written and the
    scan jumps over the occurrence ([skip] counts the characters of the
    occurrence still to be passed over); elsewhere the character is
    copied. *)
Fixpoint replace_scan (old new s : str) (skip : nat) : str :=
  match s with
  | [] => []
  | c :: s' =>
      match skip with
      | S k => replace_scan old new s' k
      | O =>
          if startswith s old
          then new ++ replace_scan old new s' (length old - 1)
          else c :: replace_scan old new s' 0
      end
  end.

(** [s.replace(old, new)]: every occurrence, no count argument.  For an
    empty [old], [new] is inserted before every character and at the
    end. *)
Definition replace (s old new : str) : str :=
  match old with
  | [] => new ++ flat_map (fun c => c :: new) s
  | _ :: _ => replace_scan old new s 0
  end.

(** [sub in s] *)
Fixpoint contains (s sub : str) : bool :=
  startswith s sub
  || match s with
     | [] => false
     | _ :: s' => contains s' sub
     end.

(** [old] occurs in [s]. *)
Definition occurs (old s : str) : Prop := exists p q, s = p ++ old ++ q.

(** In [pre ++ old ++ rest] no occurrence of [old] starts before the
    one that follows [pre]. *)
Definition first_at (old pre rest : str) : Prop :=
  forall p q,
    pre ++ old ++ rest = p ++ old ++ q -> (length pre <= length p)%nat.

(** [r] is [s] with every occurrence of [old] rewritten to [new]: the
    occurrences are taken from left to right, each one starting after
    the end of the one before. *)
Inductive replaced_all (old new : str) : str -> str -> Prop :=
  | ra_none s : ~ occurs old s -> replaced_all old new s s
  | ra_first pre rest r :
      first_at old pre rest ->
      replaced_all old new rest r ->
      replaced_all old new (pre ++ old ++ rest) (pre ++ new ++ r).

(** [s] with the first occurrence of [old] rewritten to [new] and any
    later occurrence left as it is ([s.replace(old, new, 1)]). *)
Fixpoint replace_first (s old new : str) : str :=
  if startswith s old then new ++ skipn (length old) s
  else match s with
       | [] => []
       | c :: s' => c :: replace_first s' old new
       end.

(** [c.isspace()]: the Unicode white-space characters. *)
Definition isspace (c : codepoint) : bool :=
  ((9 <=? c) && (c <=? 13)) || ((28 <=? c) && (c <=? 32))
  || (c =? 133) || (c =? 160) || (c =? 5760)
  || ((8192 <=? c) && (c <=? 8202))
  || (c =? 8232) || (c =? 8233) || (c =? 8239) || (c =? 8287)
  || (c =? 12288).

Fixpoint lstrip (s : str) : str :=
  match s with
  | c :: s' => if isspace c then lstrip s' else s
  | [] => []
  end.

Definition rstrip (s : str) : str := rev (lstrip (rev s)).

(** [s.strip()] *)
Definition strip (s : str) : str := rstrip (lstrip s).

(** Universal newlines, as applied by a file opened in text mode for
    reading: [\r\n] and a lone [\r] both become [\n]. *)
Fixpoint translate_newlines (s : str) : str :=
  match s with
  | [] => []
  | c :: s' =>
      if c =? 13 then
        match s' with
        | d :: s'' => if d =? 10 then 10 :: translate_newlines s''
                      else 10 :: translate_newlines s'
        | [] => [10]
        end
      else c :: translate_newlines s'
  end.

End Str.

(** [parse_ext_x_key_contents] and [parse_ext_x_session_key_contents]
    hand the decoded text to [m3u8.loads], the playlist parser of an
    external library: a parameter of the model. *)
Section HlsTagDecoder.

Variable Playlist : Type.
Variable m3u8_loads : str -> result Playlist.

Definition SESSION_KEY_METHOD : str := lit "#EXT-X-SESSION-KEY:METHOD".
Definition KEY_METHOD : str := lit "#EXT-X-KEY:METHOD".

Definition parse_ext_x_key_contents (text_in_bytes : bytes)
  : result Playlist :=
  let* decoded_text := decode_b64_bytes text_in_bytes in
  m3u8_loads decoded_text.

Definition parse_ext_x_session_key_contents (text_in_bytes : bytes)
  : result Playlist :=
  let* decoded := decode_b64_bytes text_in_bytes in
  let decoded_text := Str.replace decoded SESSION_KEY_METHOD KEY_METHOD in
  m3u8_loads decoded_text.

End HlsTagDecoder.

(** ** [re.match] for the pattern of [get_aws_auth] *)

Module Re.

(** The fragment of the pattern language the helper uses: literal text,
    a greedy one-or-more repetition of a one-character class, a
    capturing group (there is one group, number 1) and concatenation. *)
Inductive regex : Type :=
  | Literal (s : str)
  | PlusClass (cls : codepoint -> bool)
  | Group (r : regex)
  | Concat (r1 r2 : regex).

(** [[a-z0-9]] *)
Definition lower_or_digit (c : codepoint) : bool :=
  ((97 <=? c) && (c <=? 122)) || ((48 <=? c) && (c <=? 57)).

(** [.] without DOTALL: any character but a newline. *)
Definition dot (c : codepoint) : bool := negb (c =? 10).

Section Matcher.

Variable A : Type.

(** Greedy [cls+] with backtracking: take as many characters as the
    class allows, and give characters back one at a time, down to one,
    until the continuation [k] succeeds on what is left. *)
Fixpoint plus (cls : codepoint -> bool) (s : str)
         (k : str -> option A) : option A :=
  match s with
  | [] => None
  | c :: s' =>
      if cls c then
        match plus cls s' k with
        | Some a => Some a
        | None => k s'
        end
      else None
  end.

(** The backtracking matcher.  [g] is the text captured by group 1 so
    far, [k] what remains to be matched after [r]. *)
Fixpoint run (r : regex) (s : str) (g : option str)
         (k : str -> option str -> option A) : option A :=
  match r with
  | Literal l =>
      match Str.strip_prefix l s with
      | Some rest => k rest g
      | None => None
      end
  | PlusClass cls => plus cls s (fun rest => k rest g)
  | Group r' =>
      run r' s g
          (fun rest _ => k rest (Some (firstn (length s - length rest) s)))
  | Concat r1 r2 => run r1 s g (fun rest g' => run r2 rest g' k)
  end.

End Matcher.

(** A match object: the text after the match and group 1. *)
Record Match : Type := { after : str; group1 : option str }.

(** [re.match(pattern, string)]: the pattern must match at the start of
    the string; it need not reach its end. *)
Definition re_match (pattern : regex) (string : str) : option Match :=
  run Match pattern string None
      (fun rest g => Some {| after := rest; group1 := g |}).

End Re.

(** ** The signed request sender: [get_aws_auth] *)

(** The fields of [urllib.parse.ParseResult]. *)
Record ParseResult : Type := {
  scheme : str; netloc : str; path : str;
  params : str; query : str; fragment : str
}.

(** What [boto_utils.get_credentials()] returns. *)
Record Credentials : Type := {
  cred_access_key : str;
  cred_secret_access_key : str;
  cred_token : option str
}.

(** The arguments an [AWSRequestsAuth] object is built from. *)
Record AWSRequestsAuth : Type := {
  aws_access_key : str;
  aws_secret_access_key : str;
  aws_token : option str;
  aws_host : str;
  aws_region : option str;
  aws_service : str
}.

(** [[a-z0-9]+\.execute-api\.(.+)\.amazonaws\.com] *)
Definition API_GATEWAY_PATTERN : Re.regex :=
  Re.Concat (Re.PlusClass Re.lower_or_digit)
    (Re.Concat (Re.Literal (lit ".execute-api."))
       (Re.Concat (Re.Group (Re.PlusClass Re.dot))
          (Re.Literal (lit ".amazonaws.com")))).

(** [SPEKE_V2_REQUEST_HEADERS] *)
Definition SPEKE_V2_REQUEST_HEADERS : list (str * str) :=
  [ (lit "x-speke-version", lit "2.0");
    (lit "Content-type", lit "application/xml") ].

Section SignedRequestSender.

(** [urllib.parse.urlparse], the credential resolver and [requests.post]
    are collaborators outside this module. *)
Variable urlparse : str -> result ParseResult.
Variable get_credentials : result Credentials.
Variable Response : Type.
Variable requests_post :
  str -> AWSRequestsAuth -> bytes -> list (str * str) -> result Response.

Definition get_aws_auth (url : str) : result AWSRequestsAuth :=
  let* parsed := urlparse url in
  let api_gateway_netloc := netloc parsed in
  match Re.re_match API_GATEWAY_PATTERN api_gateway_netloc with
  | None => Raise AttributeError
  | Some m =>
      let api_gateway_region := Re.group1 m in
      let* creds := get_credentials in
      Ok {| aws_access_key := cred_access_key creds;
            aws_secret_access_key := cred_secret_access_key creds;
            aws_token := cred_token creds;
            aws_host := api_gateway_netloc;
            aws_region := api_gateway_region;
            aws_service := lit "execute-api" |}
  end.

(** The auth object is built before the request is sent: a host the
    pattern does not match means no request. *)
Definition speke_v2_request (speke_url : str) (request_data : bytes)
  : result Response :=
  let* auth := get_aws_auth speke_url in
  requests_post speke_url auth request_data SPEKE_V2_REQUEST_HEADERS.

End SignedRequestSender.

(** The pattern matches at the start of [host]: [host] begins with
    lower-case letters or digits, [.execute-api.], a non-empty text
    without a newline, and [.amazonaws.com]. *)
Definition matches_at_start (host : str) : Prop :=
  exists id region rest,
    host = id ++ lit ".execute-api." ++ region ++ lit ".amazonaws.com" ++ rest /\
    id <> [] /\ forallb Re.lower_or_digit id = true /\
    region <> [] /\ forallb Re.dot region = true.

(** [host] is exactly [<id>.execute-api.<region>.amazonaws.com]. *)
Definition api_gateway_host (host id region : str) : Prop :=
  host = id ++ lit ".execute-api." ++ region ++ lit ".amazonaws.com" /\
  id <> [] /\ forallb Re.lower_or_digit id = true /\
  region <> [] /\ forallb Re.dot region = true.

(** ** The XML tag counter *)

(** An [xml.etree.ElementTree.Element]: a qualified tag, attributes,
    the text before the first child, the text after the end tag, and
    the child elements in document order. *)
Inductive Element : Type :=
  | Elem (tag : str) (attrib : list (str * str))
         (text tail : option str) (children : list Element).

Definition tag (e : Element) : str :=
  match e with Elem t _ _ _ _ => t end.

Definition children (e : Element) : list Element :=
  match e with Elem _ _ _ _ cs => cs end.

(** The elements of a tree in the order their end tags occur in the
    document: the order of the [end] events of [ET.iterparse]. *)
Fixpoint end_order (e : Element) : list Element :=
  match e with
  | Elem _ _ _ _ cs => flat_map end_order cs ++ [e]
  end.

(** The tags of a document, in the same order. *)
Definition tags_of (e : Element) : list str := map tag (end_order e).

(** What an incremental parser yields: an (event, element) pair, as
    [ET.iterparse] does, or a bare element. *)
Inductive ParseItem : Type :=
  | Pair (event : str) (ele : Element)
  | Bare (element : Element).

Definition item_element (it : ParseItem) : Element :=
  match it with Pair _ e => e | Bare e => e end.

(** [collections.Counter(iterable)]: for every item,
    [self[item] = self.get(item, 0) + 1]. *)
Definition Counter (xs : list str) : gmap str Z :=
  foldl (fun c x => <[x := default 0 (c !! x) + 1]> c) ∅ xs.

(** [d.keys()] and [d.values()] of one dictionary run in the same
    order. *)
Definition keys (d : gmap str Z) : list str := (map_to_list d).*1.
Definition values (d : gmap str Z) : list Z := (map_to_list d).*2.

(** [dict(pairs)]: later pairs override earlier ones. *)
Definition dict (pairs : list (str * Z)) : gmap str Z :=
  foldl (fun d kv => <[kv.1 := kv.2]> d) ∅ pairs.

Section XmlTagCounter.

(** [ET.iterparse(StringIO(xml_content))] run to the end: the items
    it yields, or the parse error of a malformed document. *)
Variable iterparse : str -> result (list ParseItem).

Definition count_tags (xml_content : str) : result (gmap str Z) :=
  let* items := iterparse xml_content in
  let xml_tags :=
    map (fun element =>
           match element with
           | Pair pos ele => tag ele
           | Bare element => tag element
           end) items in
  let xml_keys := keys (Counter xml_tags) in
  let xml_values := values (Counter xml_tags) in
  let xml_dict := dict (zip xml_keys xml_values) in
  Ok xml_dict.

(** [xml_content] is a well-formed document with element tree
    [root]: the parser yields the elements of [root], each once, in
    the order of their end tags. *)
Definition document (xml_content : str) (root : Element) : Prop :=
  exists items,
    iterparse xml_content = Ok items /\
    map item_element items = end_order root.

End XmlTagCounter.

Definition count_child_element_tags_for_element (parent_element : Element)
  : gmap str Z :=
  let xml_tags := map (fun element => tag element) (children parent_element) in
  let xml_keys := keys (Counter xml_tags) in
  let xml_values := values (Counter xml_tags) in
  let xml_dict := dict (zip xml_keys xml_values) in
  xml_dict.

(** The count a table gives a tag; a tag that is not a key counts 0. *)
Definition count_of (d : gmap str Z) (t : str) : Z := default 0 (d !! t).

(** How many times [t] occurs in a list of tags. *)
Definition occurrences (t : str) (xs : list str) : Z :=
  Z.of_nat (length (filter (fun x => x = t) xs)).

(** The sum of the counts of a table. *)
Definition sum_of_counts (d : gmap str Z) : Z := foldr Z.add 0 (values d).

(** The number of elements of a tree. *)
Fixpoint element_count (e : Element) : nat :=
  match e with
  | Elem _ _ _ _ cs => S (list_sum (map element_count cs))
  end.

(** Two documents with the same elements up to the order of siblings, at
    any depth: corresponding elements have the same tag and, up to
    order, corresponding children.  Attributes, text and tails, which
    the counters do not read, are not compared: the tail of an element
    is the text that follows it, and in a document whose siblings have
    changed places it is in general another one. *)
Inductive siblings_permuted : Element -> Element -> Prop :=
  | sp_node t a1 a2 x1 x2 l1 l2 cs1 cs cs2 :
      Forall2 siblings_permuted cs1 cs ->
      Permutation cs cs2 ->
      siblings_permuted (Elem t a1 x1 l1 cs1) (Elem t a2 x2 l2 cs2).

(** An element with another tail.  The tail is the text between the end
    of the element and what follows it in its parent: the root of a
    document has none, and a subtree taken out of a document leaves its
    tail behind. *)
Definition with_tail (tl : option str) (e : Element) : Element :=
  match e with
  | Elem t a x _ cs => Elem t a x tl cs
  end.

(** ** The fixture loader *)

(** What a path names on disk. *)
Inductive FileState : Type :=
  | Missing
  | Directory
  | Unreadable
  | OtherFailure (e : exception)
  | Regular (contents : bytes).

Definition FIXTURES_DIR : str := lit "./spekev2_requests/".

Section FixtureLoader.

(** The decoder of the locale's preferred encoding, which [open] uses
    when no encoding is given, and the state of the disk. *)
Variable locale_decode : bytes -> result str.
Variable disk : str -> FileState.

(** [open(path, "r")] followed by [f.read()].  A path with a NUL
    character is refused before the disk is looked at; a path that
    cannot be opened raises the error of its state; the bytes of a
    regular file are decoded with the locale's encoding and newlines
    are translated. *)
Definition open_read_text (path : str) : result str :=
  if existsb (Z.eqb 0) path then Raise ValueError
  else
    match disk path with
    | Missing => Raise FileNotFoundError
    | Directory => Raise IsADirectoryError
    | Unreadable => Raise PermissionError
    | OtherFailure e => Raise e
    | Regular raw =>
        let* decoded := locale_decode raw in
        Ok (Str.translate_newlines decoded)
    end.

Definition read_xml_file_contents (filename : str) : result bytes :=
  let* contents := open_read_text (FIXTURES_DIR ++ Str.strip filename) in
  Utf8.encode contents.

End FixtureLoader.

(** ** Sample data

    Small concrete inputs on which the statements below are run. *)

Module Sample.

(** An API Gateway endpoint and what [urlparse] makes of it. *)
Definition url : str :=
  lit "https://abc123.execute-api.us-east-1.amazonaws.com/prod/speke".

Definition host : str := lit "abc123.execute-api.us-east-1.amazonaws.com".

Definition urlparse (u : str) : result ParseResult :=
  if decide (u = url) then
    Ok {| scheme := lit "https"; netloc := host; path := lit "/prod/speke";
          params := []; query := []; fragment := [] |}
  else Raise ValueError.

Definition credentials : Credentials :=
  {| cred_access_key := lit "AKIDEXAMPLE";
     cred_secret_access_key := lit "wJalrXUtnFEMI";
     cred_token := None |}.

(** A CPIX response and the same response with the two lists swapped. *)
Definition leaf (t : string) : Element := Elem (lit t) [] None None [].

Definition content_keys : Element :=
  Elem (lit "ContentKeyList") [] None None
       [leaf "ContentKey"; leaf "ContentKey"].

Definition drm_systems : Element :=
  Elem (lit "DRMSystemList") [] None None [leaf "DRMSystem"].

Definition cpix : Element :=
  Elem (lit "CPIX") [] None None [content_keys; drm_systems].

Definition cpix_swapped : Element :=
  Elem (lit "CPIX") [] None None [drm_systems; content_keys].

Definition content_keys_xml : str :=
  lit "<ContentKeyList><ContentKey/><ContentKey/></ContentKeyList>".

Definition drm_systems_xml : str :=
  lit "<DRMSystemList><DRMSystem/></DRMSystemList>".

Definition cpix_xml : str :=
  lit "<CPIX>" ++ content_keys_xml ++ drm_systems_xml ++ lit "</CPIX>".

Definition cpix_swapped_xml : str :=
  lit "<CPIX>" ++ drm_systems_xml ++ content_keys_xml ++ lit "</CPIX>".

Definition end_events (root : Element) : list ParseItem :=
  map (Pair (lit "end")) (end_order root).

(** A parser that knows the four sample documents. *)
Definition iterparse (xml : str) : result (list ParseItem) :=
  if decide (xml = cpix_xml) then Ok (end_events cpix)
  else if decide (xml = cpix_swapped_xml) then Ok (end_events cpix_swapped)
  else if decide (xml = content_keys_xml) then Ok (end_events content_keys)
  else if decide (xml = drm_systems_xml) then Ok (end_events drm_systems)
  else Raise ParseError.

(** Key-tag payloads.  [quote] is the double quote character. *)
Definition quote : str := [34].

Definition session_key_rest : str :=
  lit "AES-128,URI=" ++ quote ++ lit "https://keys.example.com/k1" ++ quote.

Definition session_key_text : str :=
  lit "#EXT-X-SESSION-KEY:METHOD=" ++ session_key_rest.

Definition session_key_payload : bytes :=
  lit "I0VYVC1YLVNFU1NJT04tS0VZOk1FVEhPRD1BRVMtMTI4LFVSST0iaHR0cHM6Ly9rZXlzLmV4YW1wbGUuY29tL2sxIg==".

Definition two_tags_text : str :=
  lit "#EXT-X-SESSION-KEY:METHOD=NONE" ++ [10]
  ++ lit "#EXT-X-SESSION-KEY:METHOD=NONE".

Definition two_tags_payload : bytes :=
  lit "I0VYVC1YLVNFU1NJT04tS0VZOk1FVEhPRD1OT05FCiNFWFQtWC1TRVNTSU9OLUtFWTpNRVRIT0Q9Tk9ORQ==".

(** Two session-key tags, the first with [SESSION-KEY] in its URI. *)
Definition mixed_text : str :=
  lit "#EXT-X-SESSION-KEY:METHOD=AES-128,URI=" ++ quote
  ++ lit "https://keys.example.com/SESSION-KEY" ++ quote ++ [10]
  ++ lit "#EXT-X-SESSION-KEY:METHOD=NONE".

Definition mixed_payload : bytes :=
  lit "I0VYVC1YLVNFU1NJT04tS0VZOk1FVEhPRD1BRVMtMTI4LFVSST0iaHR0cHM6Ly9rZXlzLmV4YW1wbGUuY29tL1NFU1NJT04tS0VZIgojRVhULVgtU0VTU0lPTi1LRVk6TUVUSE9EPU5PTkU=".

(** [mixed_text.replace("SESSION-KEY", "KEY")], base64-encoded. *)
Definition mixed_payload_renamed : bytes :=
  lit "I0VYVC1YLUtFWTpNRVRIT0Q9QUVTLTEyOCxVUkk9Imh0dHBzOi8va2V5cy5leGFtcGxlLmNvbS9LRVkiCiNFWFQtWC1LRVk6TUVUSE9EPU5PTkU=".

(** [mixed_text.replace("SESSION-KEY", "KEY", 1)], base64-encoded. *)
Definition mixed_payload_renamed_once : bytes :=
  lit "I0VYVC1YLUtFWTpNRVRIT0Q9QUVTLTEyOCxVUkk9Imh0dHBzOi8va2V5cy5leGFtcGxlLmNvbS9TRVNTSU9OLUtFWSIKI0VYVC1YLVNFU1NJT04tS0VZOk1FVEhPRD1OT05F".

(** The parser that returns the text it is given: it shows which text
    reaches [m3u8.loads]. *)
Definition echo (text : str) : result str := Ok text.

(** A fixtures directory with a request, an empty file and a file that
    ends in a carriage return and a line feed. *)
Definition disk (path : str) : FileState :=
  if decide (path = FIXTURES_DIR) then Directory
  else if decide (path = lit "./spekev2_requests/request.xml")
  then Regular (lit "<CPIX/>" ++ [10])
  else if decide (path = lit "./spekev2_requests/empty.xml") then Regular []
  else if decide (path = lit "./spekev2_requests/crlf.xml")
       then Regular (lit "<CPIX/>" ++ [13; 10])
  else Missing.

End Sample.

(** ** Further sample data *)

Module Cases.

(** An endpoint with a port, and a service behind a domain of its own. *)
Definition port_url : str :=
  lit "https://abc123.execute-api.us-east-1.amazonaws.com:8443/prod".

Definition port_host : str :=
  lit "abc123.execute-api.us-east-1.amazonaws.com:8443".

Definition other_url : str := lit "https://speke.example.com/v2".

Definition urlparse (u : str) : result ParseResult :=
  if decide (u = port_url) then
    Ok {| scheme := lit "https"; netloc := port_host; path := lit "/prod";
          params := []; query := []; fragment := [] |}
  else if decide (u = other_url) then
    Ok {| scheme := lit "https"; netloc := lit "speke.example.com";
          path := lit "/v2"; params := []; query := []; fragment := [] |}
  else Raise ValueError.

(** A server that answers 200 and sends the request body back. *)
Definition post (url : str) (auth : AWSRequestsAuth) (data : bytes)
    (headers : list (str * str)) : result (Z * bytes) :=
  Ok (200, data).

(** A parser that reports every element twice, once as a pair at its
    start tag and once bare. *)
Definition iterparse_twice (xml : str) : result (list ParseItem) :=
  if decide (xml = Sample.drm_systems_xml) then
    Ok (flat_map (fun e => [Pair (lit "start") e; Bare e])
                 (end_order Sample.drm_systems))
  else Raise ParseError.

(** [#EXT-X-KEY:METHOD=NONE], base64-encoded. *)
Definition key_payload : bytes := lit "I0VYVC1YLUtFWTpNRVRIT0Q9Tk9ORQ==".


(** A location that starts like an API Gateway host and goes on. *)
Definition suffix_url : str :=
  lit "https://abc123.execute-api.us-east-1.amazonaws.com.evil.example/prod".

Definition suffix_host : str :=
  lit "abc123.execute-api.us-east-1.amazonaws.com.evil.example".

Definition urlparse_suffix (u : str) : result ParseResult :=
  if decide (u = suffix_url) then
    Ok {| scheme := lit "https"; netloc := suffix_host; path := lit "/prod";
          params := []; query := []; fragment := [] |}
  else Raise ValueError.

(** A document printed on several lines, and the same with its two
    children in the other order: the text after each child stays where
    it is. *)
Definition printed : Element :=
  Elem (lit "CPIX") [] (Some [10; 32]) None
       [ Elem (lit "ContentKeyList") [] None (Some [10; 32]) [];
         Elem (lit "DRMSystemList") [] None (Some [10]) [] ].

Definition printed_swapped : Element :=
  Elem (lit "CPIX") [] (Some [10; 32]) None
       [ Elem (lit "DRMSystemList") [] None (Some [10; 32]) [];
         Elem (lit "ContentKeyList") [] None (Some [10]) [] ].

Definition printed_xml : str :=
  lit "<CPIX>" ++ [10; 32] ++ lit "<ContentKeyList/>" ++ [10; 32]
  ++ lit "<DRMSystemList/>" ++ [10] ++ lit "</CPIX>".

Definition printed_swapped_xml : str :=
  lit "<CPIX>" ++ [10; 32] ++ lit "<DRMSystemList/>" ++ [10; 32]
  ++ lit "<ContentKeyList/>" ++ [10] ++ lit "</CPIX>".

(** A parser for these documents and for their two children taken
    alone, the root of a document having no tail. *)
Definition iterparse_printed (xml : str) : result (list ParseItem) :=
  if decide (xml = printed_xml) then Ok (Sample.end_events printed)
  else if decide (xml = printed_swapped_xml)
       then Ok (Sample.end_events printed_swapped)
  else if decide (xml = lit "<ContentKeyList/>")
       then Ok (Sample.end_events (Elem (lit "ContentKeyList") [] None None []))
  else if decide (xml = lit "<DRMSystemList/>")
       then Ok (Sample.end_events (Elem (lit "DRMSystemList") [] None None []))
  else Raise ParseError.

End Cases.

(** * Properties *)

(** ** The error monad *)

Lemma rmap_Ok_inv {A B} (f : A -> B) (r : result A) (y : B) :
  rmap f r = Ok y -> exists x, r = Ok x /\ y = f x.
Proof. destruct r as [x|e]; simpl; [|done]. intros [= <-]. eauto. Qed.

Lemma rmap_Raise_inv {A B} (f : A -> B) (r : result A) (e : exception) :
  rmap f r = Raise e -> r = Raise e.
Proof. destruct r as [x|e']; simpl; [done|]. by intros [= <-]. Qed.

Lemma bind_Ok_inv {A B} (r : result A) (k : A -> result B) (y : B) :
  Py.bind r k = Ok y -> exists x, r = Ok x /\ k x = Ok y.
Proof. destruct r as [x|e]; simpl; [|done]. eauto. Qed.

(** ** Shifts and masks as arithmetic *)

Lemma land_low_bits x k : 0 <= k -> Z.land x (2 ^ k - 1) = x mod 2 ^ k.
Proof.
  intros Hk. rewrite <- Z.land_ones by lia. f_equal.
  rewrite Z.ones_equiv. lia.
Qed.

(** An [or] of two integers that share no bit is their sum. *)
Lemma lor_disjoint_add hi lo n :
  0 <= n -> 0 <= lo < 2 ^ n -> Z.lor (hi * 2 ^ n) lo = hi * 2 ^ n + lo.
Proof.
  intros Hn Hlo. rewrite <- Z.add_lor_land.
  assert (Z.land (hi * 2 ^ n) lo = 0) as ->; [|lia].
  apply Z.bits_inj'. intros i Hi.
  rewrite Z.land_spec, Z.bits_0.
  destruct (Z.ltb_spec i n).
  - rewrite Z.mul_pow2_bits_low by lia. done.
  - rewrite <- (Z.mod_small lo (2 ^ n)) by lia.
    rewrite Z.mod_pow2_bits_high by lia. apply andb_false_r.
Qed.

Lemma cont_byte x : 0 <= x < 64 -> Z.lor 128 x = 128 + x.
Proof. intros H. apply (lor_disjoint_add 2 x 6); simpl; lia. Qed.

Ltac bits_to_arith :=
  rewrite ?Z.shiftr_div_pow2, ?Z.shiftl_mul_pow2 by lia;
  change (Z.land ?x 3) with (Z.land x (2 ^ 2 - 1));
  change (Z.land ?x 7) with (Z.land x (2 ^ 3 - 1));
  change (Z.land ?x 15) with (Z.land x (2 ^ 4 - 1));
  change (Z.land ?x 31) with (Z.land x (2 ^ 5 - 1));
  change (Z.land ?x 63) with (Z.land x (2 ^ 6 - 1));
  change (Z.land ?x 255) with (Z.land x (2 ^ 8 - 1));
  rewrite ?land_low_bits by lia.

Ltac arith := simpl Z.pow in *; Z.div_mod_to_equations; lia.

Ltac bytes_in_range := repeat constructor; unfold is_byte; arith.

(** ** Base64: decoding what the encoder wrote *)

Section Base64Facts.

Import Base64.

Lemma sextet_table v :
  0 <= v < 64 ->
  table_a2b_base64 (table_b2a_base64 v) = v /\
  (table_b2a_base64 v =? BASE64_PAD) = false.
Proof.
  intros Hv. unfold table_a2b_base64, table_b2a_base64, BASE64_PAD.
  repeat match goal with
         | |- context [?x <? ?y] => destruct (Z.ltb_spec x y)
         | |- context [?x <=? ?y] => destruct (Z.leb_spec x y)
         | |- context [?x =? ?y] => destruct (Z.eqb_spec x y)
         | _ => progress simpl
         end; split; lia.
Qed.

(** One step of the decoder on a character of the alphabet. *)
Lemma a2b_base64_char v rest q leftchar pads :
  0 <= v < 64 ->
  a2b_base64 (table_b2a_base64 v :: rest) q leftchar pads =
  match q with
  | Q0 => a2b_base64 rest Q1 v 0
  | Q1 => rmap (cons (Z.land (Z.lor (Z.shiftl leftchar 2) (Z.shiftr v 4)) 255))
               (a2b_base64 rest Q2 (Z.land v 15) 0)
  | Q2 => rmap (cons (Z.land (Z.lor (Z.shiftl leftchar 4) (Z.shiftr v 2)) 255))
               (a2b_base64 rest Q3 (Z.land v 3) 0)
  | Q3 => rmap (cons (Z.land (Z.lor (Z.shiftl leftchar 6) v) 255))
               (a2b_base64 rest Q0 0 0)
  end.
Proof.
  intros Hv. destruct (sextet_table v Hv) as [Hround Hpad].
  cbn [a2b_base64]. rewrite Hpad. cbv zeta. rewrite Hround.
  destruct (Z.leb_spec 64 v); [lia|]. reflexivity.
Qed.

Lemma list_ind3 {A} (P : list A -> Prop) :
  P [] -> (forall a, P [a]) -> (forall a b, P [a; b]) ->
  (forall a b c l, P l -> P (a :: b :: c :: l)) ->
  forall l, P l.
Proof.
  intros H0 H1 H2 H3. fix IH 1.
  intros [|a [|b [|c l]]]; [apply H0 | apply H1 | apply H2 | apply H3, IH].
Qed.

Lemma sextet1_arith a b :
  is_byte a -> is_byte b ->
  Z.lor (Z.shiftl (Z.land a 3) 4) (Z.shiftr b 4) = (a mod 4) * 16 + b / 16.
Proof.
  unfold is_byte. intros Ha Hb. bits_to_arith.
  rewrite lor_disjoint_add by arith. arith.
Qed.

Lemma sextet2_arith b c :
  is_byte b -> is_byte c ->
  Z.lor (Z.shiftl (Z.land b 15) 2) (Z.shiftr c 6) = (b mod 16) * 4 + c / 64.
Proof.
  unfold is_byte. intros Hb Hc. bits_to_arith.
  rewrite lor_disjoint_add by arith. arith.
Qed.

Lemma sextet_ranges a b c :
  is_byte a -> is_byte b -> is_byte c ->
  0 <= Z.shiftr a 2 < 64 /\
  0 <= Z.lor (Z.shiftl (Z.land a 3) 4) (Z.shiftr b 4) < 64 /\
  0 <= Z.lor (Z.shiftl (Z.land b 15) 2) (Z.shiftr c 6) < 64 /\
  0 <= Z.land c 63 < 64.
Proof.
  intros Ha Hb Hc. rewrite sextet1_arith, sextet2_arith by assumption.
  unfold is_byte in *. bits_to_arith. arith.
Qed.

Lemma first_byte a b :
  is_byte a -> is_byte b ->
  Z.land (Z.lor (Z.shiftl (Z.shiftr a 2) 2)
            (Z.shiftr (Z.lor (Z.shiftl (Z.land a 3) 4) (Z.shiftr b 4)) 4)) 255
  = a.
Proof.
  intros Ha Hb. rewrite sextet1_arith by assumption.
  unfold is_byte in *. bits_to_arith.
  rewrite lor_disjoint_add by arith. arith.
Qed.

Lemma second_byte a b c :
  is_byte a -> is_byte b -> is_byte c ->
  Z.land (Z.lor
            (Z.shiftl (Z.land (Z.lor (Z.shiftl (Z.land a 3) 4) (Z.shiftr b 4)) 15) 4)
            (Z.shiftr (Z.lor (Z.shiftl (Z.land b 15) 2) (Z.shiftr c 6)) 2)) 255
  = b.
Proof.
  intros Ha Hb Hc. rewrite sextet1_arith, sextet2_arith by assumption.
  unfold is_byte in *. bits_to_arith.
  rewrite lor_disjoint_add by arith. arith.
Qed.

Lemma third_byte b c :
  is_byte b -> is_byte c ->
  Z.land (Z.lor
            (Z.shiftl (Z.land (Z.lor (Z.shiftl (Z.land b 15) 2) (Z.shiftr c 6)) 3) 6)
            (Z.land c 63)) 255
  = c.
Proof.
  intros Hb Hc. rewrite sextet2_arith by assumption.
  unfold is_byte in *. bits_to_arith.
  rewrite lor_disjoint_add by arith. arith.
Qed.

Lemma is_byte_0 : is_byte 0.
Proof. unfold is_byte. lia. Qed.

(** [b64decode] undoes [b64encode]. *)
Lemma b64decode_b64encode data :
  Forall is_byte data -> b64decode (b64encode data) = Ok data.
Proof.
  unfold b64decode. induction data as [|a|a b|a b c l IH] using list_ind3;
    intros HF.
  - reflexivity.
  - inversion_clear HF as [|? ? Ha _].
    pose proof (sextet_ranges a 0 0 Ha is_byte_0 is_byte_0) as (R0 & R1 & _).
    pose proof (first_byte a 0 Ha is_byte_0) as B1.
    change (Z.shiftr 0 4) with 0 in *. rewrite Z.lor_0_r in *.
    cbn [b64encode]. rewrite !a2b_base64_char by assumption.
    rewrite B1. reflexivity.
  - inversion_clear HF as [|? ? Ha HF']. inversion_clear HF' as [|? ? Hb _].
    pose proof (sextet_ranges a b 0 Ha Hb is_byte_0) as (R0 & R1 & R2 & _).
    pose proof (first_byte a b Ha Hb) as B1.
    pose proof (second_byte a b 0 Ha Hb is_byte_0) as B2.
    change (Z.shiftr 0 6) with 0 in *. rewrite Z.lor_0_r in *.
    cbn [b64encode]. rewrite !a2b_base64_char by assumption.
    rewrite B1, B2. reflexivity.
  - inversion_clear HF as [|? ? Ha HF']. inversion_clear HF' as [|? ? Hb HF].
    inversion_clear HF as [|? ? Hc HF'].
    pose proof (sextet_ranges a b c Ha Hb Hc) as (R0 & R1 & R2 & R3).
    cbn [b64encode]. rewrite !a2b_base64_char by assumption.
    rewrite (first_byte a b Ha Hb), (second_byte a b c Ha Hb Hc),
      (third_byte b c Hb Hc), IH by assumption.
    reflexivity.
Qed.

(** The only error of the decoder is [binascii.Error]. *)
Lemma a2b_base64_raises s q leftchar pads e :
  a2b_base64 s q leftchar pads = Raise e -> e = binascii_Error.
Proof.
  revert q leftchar pads. induction s as [|ch s IH]; intros q lc p.
  - destruct q; simpl; congruence.
  - cbn [a2b_base64].
    repeat match goal with
           | |- context [if ?c then _ else _] => destruct c
           | |- context [match q with _ => _ end] => destruct q
           end;
      try discriminate;
      try (intros Hr%rmap_Raise_inv; revert Hr); apply IH.
Qed.

(** Bytes outside the alphabet are skipped: removing them does not
    change the outcome. *)
Lemma a2b_base64_significant s q leftchar pads :
  a2b_base64 s q leftchar pads =
  a2b_base64 (List.filter significant s) q leftchar pads.
Proof.
  revert q leftchar pads. induction s as [|ch s IH]; intros q lc p; [done|].
  cbn [List.filter]. unfold significant at 1, in_alphabet.
  destruct (Z.eqb_spec ch BASE64_PAD) as [->|Hne].
  - rewrite orb_true_r. cbn [a2b_base64]. rewrite Z.eqb_refl.
    repeat match goal with
           | |- context [if ?c then _ else _] => destruct c
           end; auto.
  - rewrite orb_false_r.
    destruct (Z.ltb_spec (table_a2b_base64 ch) 64) as [Hlt|Hge].
    + cbn [a2b_base64]. destruct (Z.eqb_spec ch BASE64_PAD); [done|].
      cbv zeta. destruct (Z.leb_spec 64 (table_a2b_base64 ch)); [lia|].
      destruct q; rewrite IH; reflexivity.
    + cbn [a2b_base64]. destruct (Z.eqb_spec ch BASE64_PAD); [done|].
      cbv zeta. destruct (Z.leb_spec 64 (table_a2b_base64 ch)); [|lia].
      apply IH.
Qed.

Lemma returns_rmap {A B} (f : A -> B) (r : result A) :
  returns (rmap f r) = returns r.
Proof. by destruct r. Qed.

(** Without pad characters the decoder returns exactly when the data
    characters fill whole quads. *)
Lemma a2b_base64_pad_free s q leftchar pads :
  BASE64_PAD ∉ s ->
  returns (a2b_base64 s q leftchar pads) = true <->
  (quad_index q + Z.of_nat (length (data_chars s))) mod 4 = 0.
Proof.
  revert q leftchar pads. induction s as [|ch s IH]; intros q lc p Hpad.
  - destruct q; simpl; split; (done || discriminate).
  - apply not_elem_of_cons in Hpad as [Hne Hpad].
    cbn [a2b_base64]. destruct (Z.eqb_spec ch BASE64_PAD); [done|].
    cbv zeta. unfold data_chars. cbn [List.filter]. unfold in_alphabet at 1.
    fold (data_chars s).
    destruct (Z.leb_spec 64 (table_a2b_base64 ch)),
             (Z.ltb_spec (table_a2b_base64 ch) 64); try lia.
    + by apply IH.
    + destruct q; rewrite ?returns_rmap, IH by done; cbn [length quad_index];
        split; intros Hq; Z.div_mod_to_equations; lia.
Qed.

End Base64Facts.

(** ** UTF-8: the two round trips *)

Section Utf8Facts.

Import Utf8.

Lemma in_range_spec lo hi b : in_range lo hi b = true <-> lo <= b <= hi.
Proof. unfold in_range. rewrite andb_true_iff, !Z.leb_le. tauto. Qed.

Lemma in_range_true lo hi b : lo <= b <= hi -> in_range lo hi b = true.
Proof. apply in_range_spec. Qed.

Lemma in_range_false lo hi b : b < lo \/ hi < b -> in_range lo hi b = false.
Proof.
  intros H. apply not_true_is_false. rewrite in_range_spec. lia.
Qed.

Lemma is_cont_true b : 128 <= b <= 191 -> is_cont b = true.
Proof. apply in_range_spec. Qed.

Lemma decode_1 b0 r :
  0 <= b0 <= 127 -> decode (b0 :: r) = rmap (cons b0) (decode r).
Proof. intros H. cbn [decode]. by rewrite in_range_true. Qed.

Lemma decode_2 b0 b1 r :
  194 <= b0 <= 223 -> 128 <= b1 <= 191 ->
  decode (b0 :: b1 :: r) =
  rmap (cons (Z.lor (Z.shiftl (Z.land b0 31) 6) (cont_bits b1))) (decode r).
Proof.
  intros H0 H1. cbn [decode].
  rewrite in_range_false, in_range_true, is_cont_true by lia. done.
Qed.

Lemma decode_3 b0 b1 b2 r :
  224 <= b0 <= 239 ->
  (if b0 =? 224 then 160 else 128) <= b1 <= (if b0 =? 237 then 159 else 191) ->
  128 <= b2 <= 191 ->
  decode (b0 :: b1 :: b2 :: r) =
  rmap (cons (Z.lor (Z.shiftl (Z.land b0 15) 12)
                (Z.lor (Z.shiftl (cont_bits b1) 6) (cont_bits b2))))
       (decode r).
Proof.
  intros H0 H1 H2. cbn [decode].
  rewrite 2!in_range_false, 2!in_range_true, is_cont_true by lia. done.
Qed.

Lemma decode_4 b0 b1 b2 b3 r :
  240 <= b0 <= 244 ->
  (if b0 =? 240 then 144 else 128) <= b1 <= (if b0 =? 244 then 143 else 191) ->
  128 <= b2 <= 191 -> 128 <= b3 <= 191 ->
  decode (b0 :: b1 :: b2 :: b3 :: r) =
  rmap (cons (Z.lor (Z.shiftl (Z.land b0 7) 18)
                (Z.lor (Z.shiftl (cont_bits b1) 12)
                   (Z.lor (Z.shiftl (cont_bits b2) 6) (cont_bits b3)))))
       (decode r).
Proof.
  intros H0 H1 H2 H3. cbn [decode].
  rewrite 3!in_range_false, 2!in_range_true, 2!is_cont_true by lia. done.
Qed.

Lemma decode_encode_char c r :
  scalar_value c ->
  exists bs, encode_char c = Ok bs /\ Forall is_byte bs /\
             decode (bs ++ r) = rmap (cons c) (decode r).
Proof.
  intros [Hc Hs]. unfold encode_char.
  destruct (Z.ltb_spec c 0); [lia|].
  destruct (Z.ltb_spec c 128).
  { eexists; split; [done|]. split; [bytes_in_range|].
    simpl app. apply decode_1. lia. }
  destruct (Z.ltb_spec c 2048).
  { eexists; split; [done|]. simpl app.
    assert (Z.lor 192 (Z.shiftr c 6) = 192 + c / 64) as ->.
    { bits_to_arith. apply (lor_disjoint_add 3 _ 6); arith. }
    assert (Z.lor 128 (Z.land c 63) = 128 + c mod 64) as ->.
    { bits_to_arith. apply cont_byte. arith. }
    split; [bytes_in_range|].
    rewrite decode_2 by arith. f_equal. f_equal.
    unfold cont_bits. bits_to_arith.
    rewrite lor_disjoint_add by arith. arith. }
  destruct (Z.ltb_spec c 65536).
  { rewrite in_range_false by lia.
    eexists; split; [done|]. simpl app.
    assert (Z.lor 224 (Z.shiftr c 12) = 224 + c / 4096) as ->.
    { bits_to_arith. apply (lor_disjoint_add 7 _ 5); arith. }
    assert (Z.lor 128 (Z.land (Z.shiftr c 6) 63) = 128 + (c / 64) mod 64) as ->.
    { bits_to_arith. apply cont_byte. arith. }
    assert (Z.lor 128 (Z.land c 63) = 128 + c mod 64) as ->.
    { bits_to_arith. apply cont_byte. arith. }
    split; [bytes_in_range|].
    rewrite decode_3.
    - f_equal. f_equal. unfold cont_bits. bits_to_arith.
      rewrite (lor_disjoint_add _ _ 6) by arith.
      rewrite lor_disjoint_add by arith. arith.
    - arith.
    - repeat match goal with |- context [?x =? ?y] => destruct (Z.eqb_spec x y) end; arith.
    - arith. }
  destruct (Z.ltb_spec c 1114112); [|lia].
  eexists; split; [done|]. simpl app.
  assert (Z.lor 240 (Z.shiftr c 18) = 240 + c / 262144) as ->.
  { bits_to_arith. apply (lor_disjoint_add 15 _ 4); arith. }
  assert (Z.lor 128 (Z.land (Z.shiftr c 12) 63) = 128 + (c / 4096) mod 64) as ->.
  { bits_to_arith. apply cont_byte. arith. }
  assert (Z.lor 128 (Z.land (Z.shiftr c 6) 63) = 128 + (c / 64) mod 64) as ->.
  { bits_to_arith. apply cont_byte. arith. }
  assert (Z.lor 128 (Z.land c 63) = 128 + c mod 64) as ->.
  { bits_to_arith. apply cont_byte. arith. }
  split; [bytes_in_range|].
  rewrite decode_4.
  - f_equal. f_equal. unfold cont_bits. bits_to_arith.
    rewrite (lor_disjoint_add _ _ 6) by arith.
    rewrite (lor_disjoint_add _ _ 12) by arith.
    rewrite lor_disjoint_add by arith. arith.
  - arith.
  - repeat match goal with |- context [?x =? ?y] => destruct (Z.eqb_spec x y) end; arith.
  - arith.
  - arith.
Qed.

Lemma is_cont_spec b : is_cont b = true <-> 128 <= b <= 191.
Proof. apply in_range_spec. Qed.

Lemma decode_cons_inv b0 r0 s :
  decode (b0 :: r0) = Ok s ->
  exists c bs r s',
    b0 :: r0 = bs ++ r /\ (length r < length (b0 :: r0))%nat /\
    decode r = Ok s' /\ s = c :: s' /\
    scalar_value c /\ encode_char c = Ok bs.
Proof.
  cbn [decode]. unfold scalar_value, encode_char.
  destruct (in_range 0 127 b0) eqn:E1.
  { apply in_range_spec in E1. intros (s' & Hs' & ->)%rmap_Ok_inv.
    exists b0, [b0], r0, s'. repeat split; simpl; try done; try lia.
    destruct (Z.ltb_spec b0 0); [lia|]. destruct (Z.ltb_spec b0 128); [done|lia]. }
  destruct (in_range 194 223 b0) eqn:E2.
  { apply in_range_spec in E2. destruct r0 as [|b1 r1]; [done|].
    destruct (is_cont b1) eqn:C1; [|done]. apply is_cont_spec in C1.
    intros (s' & Hs' & ->)%rmap_Ok_inv.
    assert (Z.lor (Z.shiftl (Z.land b0 31) 6) (cont_bits b1)
            = (b0 - 192) * 64 + (b1 - 128)) as ->.
    { unfold cont_bits. bits_to_arith. rewrite lor_disjoint_add by arith. arith. }
    set (c := (b0 - 192) * 64 + (b1 - 128)).
    exists c, [b0; b1], r1, s'. repeat split; simpl; try done; try lia.
    destruct (Z.ltb_spec c 0); [lia|]. destruct (Z.ltb_spec c 128); [lia|].
    destruct (Z.ltb_spec c 2048); [|lia].
    f_equal. f_equal; [|f_equal]; bits_to_arith.
    - rewrite (lor_disjoint_add 3 _ 6) by arith. arith.
    - rewrite cont_byte by arith. arith. }
  destruct (in_range 224 239 b0) eqn:E3.
  { apply in_range_spec in E3. destruct r0 as [|b1 [|b2 r2]]; [done..|].
    destruct (in_range _ _ b1) eqn:C1; [|done]. apply in_range_spec in C1.
    destruct (is_cont b2) eqn:C2; [|done]. apply is_cont_spec in C2.
    simpl andb. cbv iota. intros (s' & Hs' & ->)%rmap_Ok_inv.
    assert (128 <= b1 <= 191) as C1'.
    { revert C1. destruct (Z.eqb_spec b0 224), (Z.eqb_spec b0 237); lia. }
    assert (Z.lor (Z.shiftl (Z.land b0 15) 12)
              (Z.lor (Z.shiftl (cont_bits b1) 6) (cont_bits b2))
            = (b0 - 224) * 4096 + (b1 - 128) * 64 + (b2 - 128)) as ->.
    { unfold cont_bits. bits_to_arith.
      rewrite (lor_disjoint_add _ _ 6) by arith.
      rewrite lor_disjoint_add by arith. arith. }
    set (c := (b0 - 224) * 4096 + (b1 - 128) * 64 + (b2 - 128)).
    assert (2048 <= c < 65536 /\ ~ 55296 <= c <= 57343) as [Hc Hsur].
    { subst c. revert C1. destruct (Z.eqb_spec b0 224), (Z.eqb_spec b0 237); lia. }
    exists c, [b0; b1; b2], r2, s'. repeat split; simpl; try done; try lia.
    destruct (Z.ltb_spec c 0); [lia|]. destruct (Z.ltb_spec c 128); [lia|].
    destruct (Z.ltb_spec c 2048); [lia|]. destruct (Z.ltb_spec c 65536); [|lia].
    rewrite in_range_false by lia.
    f_equal. f_equal; [|f_equal; [|f_equal]]; bits_to_arith.
    - rewrite (lor_disjoint_add 7 _ 5) by arith. arith.
    - rewrite cont_byte by arith. arith.
    - rewrite cont_byte by arith. arith. }
  destruct (in_range 240 244 b0) eqn:E4; [|done].
  apply in_range_spec in E4. destruct r0 as [|b1 [|b2 [|b3 r3]]]; [done..|].
  destruct (in_range _ _ b1) eqn:C1; [|done]. apply in_range_spec in C1.
  destruct (is_cont b2) eqn:C2; [|done]. apply is_cont_spec in C2.
  destruct (is_cont b3) eqn:C3; [|done]. apply is_cont_spec in C3.
  simpl andb. cbv iota. intros (s' & Hs' & ->)%rmap_Ok_inv.
  assert (128 <= b1 <= 191) as C1'.
  { revert C1. destruct (Z.eqb_spec b0 240), (Z.eqb_spec b0 244); lia. }
  assert (Z.lor (Z.shiftl (Z.land b0 7) 18)
            (Z.lor (Z.shiftl (cont_bits b1) 12)
               (Z.lor (Z.shiftl (cont_bits b2) 6) (cont_bits b3)))
          = (b0 - 240) * 262144 + (b1 - 128) * 4096 + (b2 - 128) * 64 + (b3 - 128)) as ->.
  { unfold cont_bits. bits_to_arith.
    rewrite (lor_disjoint_add _ _ 6) by arith.
    rewrite (lor_disjoint_add _ _ 12) by arith.
    rewrite lor_disjoint_add by arith. arith. }
  set (c := (b0 - 240) * 262144 + (b1 - 128) * 4096 + (b2 - 128) * 64 + (b3 - 128)).
  assert (65536 <= c < 1114112) as Hc.
  { subst c. revert C1. destruct (Z.eqb_spec b0 240), (Z.eqb_spec b0 244); lia. }
  exists c, [b0; b1; b2; b3], r3, s'. repeat split; simpl; try done; try lia.
  destruct (Z.ltb_spec c 0); [lia|]. destruct (Z.ltb_spec c 128); [lia|].
  destruct (Z.ltb_spec c 2048); [lia|]. destruct (Z.ltb_spec c 65536); [lia|].
  destruct (Z.ltb_spec c 1114112); [|lia].
  f_equal. f_equal; [|f_equal; [|f_equal; [|f_equal]]]; bits_to_arith.
  - rewrite (lor_disjoint_add 15 _ 4) by arith. arith.
  - rewrite cont_byte by arith. arith.
  - rewrite cont_byte by arith. arith.
  - rewrite cont_byte by arith. arith.
Qed.

Lemma encode_cons c s bs bs' :
  encode_char c = Ok bs -> encode s = Ok bs' -> encode (c :: s) = Ok (bs ++ bs').
Proof. intros H1 H2. cbn [encode]. by rewrite H1, H2. Qed.

Lemma decode_encode s :
  Forall scalar_value s ->
  exists bs, encode s = Ok bs /\ Forall is_byte bs /\ decode bs = Ok s.
Proof.
  induction 1 as [|c s Hc _ (bs' & He & Hb & Hd)].
  - exists []. by repeat split.
  - destruct (decode_encode_char c bs' Hc) as (bs & Hec & Hbc & Hdc).
    exists (bs ++ bs'). split; [by apply encode_cons|].
    split; [by apply Forall_app|]. by rewrite Hdc, Hd.
Qed.

Lemma encode_decode raw s :
  decode raw = Ok s -> encode s = Ok raw /\ Forall scalar_value s.
Proof.
  remember (length raw) as n eqn:Hn. revert raw s Hn.
  induction n as [n IH] using lt_wf_ind. intros [|b0 r0] s Hn Hd.
  - injection Hd as <-. by split.
  - apply decode_cons_inv in Hd as (c & bs & r & s' & Heq & Hlen & Hr & -> & Hc & Hec).
    destruct (IH (length r) ltac:(lia) r s' eq_refl Hr) as [He HF].
    split; [|by constructor]. rewrite Heq. by apply encode_cons.
Qed.

(** Only scalar values have an encoding. *)
Lemma encode_char_scalar c bs : encode_char c = Ok bs -> scalar_value c.
Proof.
  unfold encode_char, scalar_value.
  destruct (Z.ltb_spec c 0); [done|]. destruct (Z.ltb_spec c 128); [lia|].
  destruct (Z.ltb_spec c 2048); [lia|]. destruct (Z.ltb_spec c 65536).
  - destruct (in_range 55296 57343 c) eqn:E; [done|].
    intros _. split; [lia|]. intros Hs. apply in_range_spec in Hs. congruence.
  - destruct (Z.ltb_spec c 1114112); [lia|done].
Qed.

Lemma encode_scalar s bs : encode s = Ok bs -> Forall scalar_value s.
Proof.
  revert bs. induction s as [|c s IH]; intros bs; [by constructor|].
  cbn [encode].
  intros (b & Hb & (bs' & Hbs' & _)%bind_Ok_inv)%bind_Ok_inv.
  constructor; [by eapply encode_char_scalar | by eapply IH].
Qed.

(** The only error of the decoder is [UnicodeDecodeError]. *)
Lemma decode_raises raw e : decode raw = Raise e -> e = UnicodeDecodeError.
Proof.
  remember (length raw) as n eqn:Hn. revert raw Hn.
  induction n as [n IH] using lt_wf_ind. intros [|b0 r0] Hn; [done|].
  cbn [decode].
  repeat match goal with
         | |- context [if ?c then _ else _] => destruct c
         | |- context [match ?l with [] => _ | _ :: _ => _ end] => destruct l
         end;
    try (intros [= <-]; reflexivity);
    intros Hr%rmap_Raise_inv; revert Hr;
    (eapply IH; [|reflexivity]); subst n; simpl; lia.
Qed.

End Utf8Facts.

(** ** [decode_b64_bytes] *)

(** Text written as UTF-8 and then as base64 is read back unchanged. *)
Lemma decode_b64_bytes_of_text (T : str) (raw : bytes) :
  Utf8.encode T = Ok raw -> decode_b64_bytes (Base64.b64encode raw) = Ok T.
Proof.
  intros Henc. pose proof (encode_scalar T raw Henc) as Hs.
  destruct (decode_encode T Hs) as (raw' & Henc' & Hbytes & Hdec).
  assert (raw' = raw) as -> by congruence.
  unfold decode_b64_bytes. by rewrite b64decode_b64encode.
Qed.

(** C4.  For every text [T] made of Unicode scalar values, [T] has a
    UTF-8 encoding, and [decode_b64_bytes] applied to the standard
    base64 encoding of those bytes returns [T]. *)
Theorem decode_b64_bytes_left_inverse (T : str) :
  Forall Utf8.scalar_value T ->
  exists raw,
    Utf8.encode T = Ok raw /\
    decode_b64_bytes (Base64.b64encode raw) = Ok T.
Proof.
  intros Hs. destruct (decode_encode T Hs) as (raw & Henc & _ & _).
  exists raw. split; [done|]. by apply decode_b64_bytes_of_text.
Qed.

Lemma decode_b64_bytes_left_inverse_witness :
  exists raw,
    Utf8.encode [104; 233; 8364; 128512] = Ok raw /\
    decode_b64_bytes (Base64.b64encode raw) = Ok [104; 233; 8364; 128512].
Proof.
  apply decode_b64_bytes_left_inverse.
  repeat constructor; unfold Utf8.scalar_value; lia.
Defined.

(** ** Lenient base64 and valid UTF-8 *)

Section LenientFacts.

Import Base64 Utf8.

Lemma in_alphabet_spec ch :
  in_alphabet ch = true ->
  0 <= table_a2b_base64 ch < 64 /\ (ch =? BASE64_PAD) = false.
Proof.
  unfold in_alphabet, table_a2b_base64, BASE64_PAD.
  repeat match goal with
         | |- context [?x <=? ?y] => destruct (Z.leb_spec x y)
         | |- context [?x =? ?y] => destruct (Z.eqb_spec x y)
         | _ => progress simpl
         end; intros Hlt; try apply Z.ltb_lt in Hlt; try lia; try discriminate.
Qed.

Lemma a2b_base64_alphabet ch rest q leftchar pads :
  in_alphabet ch = true ->
  returns (a2b_base64 (ch :: rest) q leftchar pads) =
  match q with
  | Q0 => returns (a2b_base64 rest Q1 (table_a2b_base64 ch) 0)
  | Q1 => returns (a2b_base64 rest Q2 (Z.land (table_a2b_base64 ch) 15) 0)
  | Q2 => returns (a2b_base64 rest Q3 (Z.land (table_a2b_base64 ch) 3) 0)
  | Q3 => returns (a2b_base64 rest Q0 0 0)
  end.
Proof.
  intros (Hv & Hpad)%in_alphabet_spec. cbn [a2b_base64]. rewrite Hpad.
  cbv zeta. destruct (Z.leb_spec 64 (table_a2b_base64 ch)); [lia|].
  destruct q; by rewrite ?returns_rmap.
Qed.

Lemma list_ind4 {A} (P : list A -> Prop) :
  P [] -> (forall a, P [a]) -> (forall a b, P [a; b]) ->
  (forall a b c, P [a; b; c]) ->
  (forall a b c d l, P l -> P (a :: b :: c :: d :: l)) ->
  forall l, P l.
Proof.
  intros H0 H1 H2 H3 H4. fix IH 1.
  intros [|a [|b [|c [|d l]]]];
    [apply H0 | apply H1 | apply H2 | apply H3 | apply H4, IH].
Qed.

(** What strict base64 accepts, the lenient decoder accepts. *)
Lemma valid_base64_returns s :
  valid_base64 s = true -> returns (b64decode s) = true.
Proof.
  unfold b64decode.
  induction s as [|a|a b|a b c|a b c d l IH] using list_ind4;
    try done.
  destruct l as [|e l].
  - cbn [valid_base64]. rewrite !andb_true_iff, orb_true_iff, !andb_true_iff.
    intros [[Ha Hb] [[Hc Hd] | [Hc Hd]]].
    + rewrite !a2b_base64_alphabet by done.
      apply orb_true_iff in Hd as [Hd | ->%Z.eqb_eq].
      * by rewrite a2b_base64_alphabet.
      * reflexivity.
    + apply Z.eqb_eq in Hc as ->. apply Z.eqb_eq in Hd as ->.
      rewrite !a2b_base64_alphabet by done. reflexivity.
  - change (valid_base64 (a :: b :: c :: d :: e :: l)) with
      (in_alphabet a && in_alphabet b && in_alphabet c && in_alphabet d
       && valid_base64 (e :: l)).
    rewrite !andb_true_iff. intros [[[[Ha Hb] Hc] Hd] Hrest].
    rewrite !a2b_base64_alphabet by done. by apply IH.
Qed.

Lemma data_count_cons_pad t : data_count (BASE64_PAD :: t) = data_count t.
Proof. reflexivity. Qed.

Lemma data_count_cons_alphabet ch t :
  in_alphabet ch = true -> data_count (ch :: t) = 1 + data_count t.
Proof.
  intros Hch. unfold data_count, data_chars. cbn [List.filter].
  rewrite Hch. cbn [length]. lia.
Qed.

Lemma data_count_nonneg t : 0 <= data_count t.
Proof. unfold data_count. lia. Qed.

Lemma accepts_from_nil n pads :
  0 <= n < 4 -> accepts_from n pads [] <-> n = 0.
Proof.
  intros Hn. unfold accepts_from. change (data_count []) with 0. split.
  - intros [Hc|(p & rest & Heq & _)].
    + revert Hc. Z.div_mod_to_equations. lia.
    + by destruct p.
  - intros ->. by left.
Qed.

Lemma accepts_from_pad_low n pads t :
  0 <= n < 2 ->
  accepts_from n pads (BASE64_PAD :: t) <-> accepts_from n pads t.
Proof.
  intros Hn. unfold accepts_from. rewrite data_count_cons_pad. split.
  - intros [Hc|(p & rest & Heq & Hclose)]; [by left|right].
    destruct p as [|c p'].
    + exfalso. change (data_count []) with 0 in Hclose.
      revert Hclose. Z.div_mod_to_equations. lia.
    + injection Heq as <- ->. rewrite data_count_cons_pad in Hclose.
      exists p', rest. split; [done|].
      destruct Hclose as [?|[? [?|[? _]]]]; [by left | right; split; [done | by left] | done].
  - intros [Hc|(p & rest & -> & Hclose)]; [by left|right].
    exists (BASE64_PAD :: p), rest. rewrite data_count_cons_pad.
    split; [done|].
    destruct Hclose as [?|[Hm [?|[-> _]]]]; [by left | right; split; [done | by left] |].
    exfalso. change (data_count []) with 0 in Hm.
    revert Hm. Z.div_mod_to_equations. lia.
Qed.

Lemma accepts_from_pad_closes n pads t :
  n = 3 \/ (n = 2 /\ 1 <= pads) -> accepts_from n pads (BASE64_PAD :: t).
Proof.
  intros Hn. right. exists [], t. split; [done|].
  change (data_count []) with 0.
  destruct Hn as [->|[-> Hp]]; [by left|].
  right. split; [done|]. by right.
Qed.

Lemma accepts_from_pad_first t :
  accepts_from 2 0 (BASE64_PAD :: t) <-> accepts_from 2 1 t.
Proof.
  unfold accepts_from. rewrite data_count_cons_pad. split.
  - intros [Hc|(p & rest & Heq & Hclose)]; [by left|right].
    destruct p as [|c p'].
    + injection Heq as <-. change (data_count []) with 0 in Hclose.
      destruct Hclose as [?|[_ [[rest' ->]|[_ ?]]]]; [done| |lia].
      exists [], rest'. split; [done|]. right. split; [done|]. right. split; [done|lia].
    + injection Heq as <- ->. rewrite data_count_cons_pad in Hclose.
      exists p', rest. split; [done|].
      destruct Hclose as [?|[? [?|[? _]]]]; [by left | right; split; [done | by left] | done].
  - intros [Hc|(p & rest & -> & Hclose)]; [by left|right].
    destruct Hclose as [?|[Hm [?|[-> _]]]].
    + exists (BASE64_PAD :: p), rest. rewrite data_count_cons_pad.
      split; [done|]. by left.
    + exists (BASE64_PAD :: p), rest. rewrite data_count_cons_pad.
      split; [done|]. right. split; [done | by left].
    + exists [], (BASE64_PAD :: rest). split; [done|]. right.
      split; [done|]. left. by exists rest.
Qed.

Lemma accepts_from_alphabet n n' pads ch t :
  in_alphabet ch = true -> (n + 1) mod 4 = n' mod 4 ->
  accepts_from n pads (ch :: t) <-> accepts_from n' 0 t.
Proof.
  intros Hch Hn. destruct (in_alphabet_spec ch Hch) as [_ Hpad].
  apply Z.eqb_neq in Hpad.
  assert (forall c, (n + (1 + c)) mod 4 = (n' + c) mod 4) as Hmod.
  { intros c. revert Hn. Z.div_mod_to_equations. lia. }
  unfold accepts_from. rewrite data_count_cons_alphabet by done.
  rewrite Hmod. split.
  - intros [Hc|(p & rest & Heq & Hclose)]; [by left|right].
    destruct p as [|c p']; [injection Heq as -> _; done|].
    injection Heq as <- ->. rewrite data_count_cons_alphabet, Hmod in Hclose by done.
    exists p', rest. split; [done|].
    destruct Hclose as [?|[? [?|[? _]]]]; [by left | right; split; [done | by left] | done].
  - intros [Hc|(p & rest & -> & Hclose)]; [by left|right].
    exists (ch :: p), rest. rewrite data_count_cons_alphabet, Hmod by done.
    split; [done|].
    destruct Hclose as [?|[? [?|[_ ?]]]]; [by left | right; split; [done | by left] | lia].
Qed.

(** The decoder returns exactly on the inputs that are well formed from
    its state on. *)
Lemma a2b_base64_accepts t q leftchar pads :
  forallb significant t = true -> 0 <= pads ->
  returns (a2b_base64 t q leftchar pads) = true <->
  accepts_from (quad_index q) pads t.
Proof.
  revert q leftchar pads. induction t as [|ch t IH]; intros q lc pads Hsig Hpads.
  - destruct q; rewrite accepts_from_nil by (cbn [quad_index]; lia);
      simpl; split; (done || discriminate).
  - cbn [forallb] in Hsig. apply andb_true_iff in Hsig as [Hch Hsig].
    unfold significant in Hch. apply orb_true_iff in Hch as [Hch|Hch].
    + rewrite a2b_base64_alphabet by done.
      destruct q; rewrite IH by (done || lia);
        symmetry; apply accepts_from_alphabet; done.
    + apply Z.eqb_eq in Hch as ->. cbn [a2b_base64]. rewrite Z.eqb_refl.
      destruct q; cbn [quad_index].
      * change (2 <=? 0) with false. cbv iota.
        rewrite IH by done. symmetry. apply accepts_from_pad_low. cbn [quad_index]. lia.
      * change (2 <=? 1) with false. cbv iota.
        rewrite IH by done. symmetry. apply accepts_from_pad_low. cbn [quad_index]. lia.
      * change (2 <=? 2) with true. cbv iota.
        destruct (Z.leb_spec 4 (2 + (pads + 1))).
        -- split; [intros _ | done]. apply accepts_from_pad_closes. lia.
        -- assert (pads = 0) as -> by lia.
           rewrite IH by (done || lia). symmetry. apply accepts_from_pad_first.
      * change (2 <=? 3) with true. cbv iota.
        destruct (Z.leb_spec 4 (3 + (pads + 1))); [|lia].
        split; [intros _ | done]. apply accepts_from_pad_closes. lia.
Qed.

Lemma forallb_filter {A} (f : A -> bool) l : forallb f (List.filter f l) = true.
Proof.
  induction l as [|x l IH]; [done|]. cbn [List.filter].
  destruct (f x) eqn:Hx; [|done]. simpl. by rewrite Hx.
Qed.

Lemma lenient_base64_accepts s :
  lenient_base64 s <-> accepts_from 0 0 (List.filter significant s).
Proof.
  unfold lenient_base64, accepts_from. cbv zeta.
  generalize (List.filter significant s). intros t.
  rewrite Z.add_0_l. split.
  - intros [?|(p & rest & -> & Hclose)]; [by left|right].
    exists p, rest. rewrite Z.add_0_l. split; [done|].
    destruct Hclose as [?|[? ?]]; [by left | right; split; [done | by left]].
  - intros [?|(p & rest & -> & Hclose)]; [by left|right].
    exists p, rest. rewrite Z.add_0_l in Hclose. split; [done|].
    destruct Hclose as [?|[? [?|[_ ?]]]]; [by left | by right | lia].
Qed.

(** [b64decode] returns exactly on lenient base64. *)
Lemma b64decode_returns s : returns (b64decode s) = true <-> lenient_base64 s.
Proof.
  unfold b64decode. rewrite a2b_base64_significant, lenient_base64_accepts.
  apply (a2b_base64_accepts _ Q0 0 0); [apply forallb_filter | done].
Qed.

Lemma valid_utf8_decode raw :
  valid_utf8 raw <-> exists text, decode raw = Ok text.
Proof.
  split.
  - intros [T Henc]. exists T.
    destruct (decode_encode T (encode_scalar T raw Henc)) as (raw' & Henc' & _ & Hdec).
    rewrite Henc in Henc'. injection Henc' as <-. exact Hdec.
  - intros [text Hdec]. exists text. by apply encode_decode.
Qed.

Lemma valid_base64_lenient s : valid_base64 s = true -> lenient_base64 s.
Proof. intros H. by apply b64decode_returns, valid_base64_returns. Qed.

End LenientFacts.

(** C3, as the code has it.  The base64 step is lenient: bytes that are
    neither of the alphabet nor a pad do not count, and what is left
    need only be well formed up to the first pad sequence that
    completes a quad.  On an input that is not base64 in this sense
    [decode_b64_bytes] raises [binascii.Error].  On an input that is, a
    byte string is decoded from it; when these bytes are not the UTF-8
    encoding of any text the call raises [UnicodeDecodeError], and when
    they are the call returns the text they encode.  Base64 in the
    strict sense is base64 in the lenient sense. *)
Theorem decode_b64_bytes_errors (text_in_bytes : bytes) :
  (~ Base64.lenient_base64 text_in_bytes ->
   decode_b64_bytes text_in_bytes = Raise binascii_Error) /\
  (Base64.lenient_base64 text_in_bytes ->
   exists raw,
     Base64.b64decode text_in_bytes = Ok raw /\
     (~ Utf8.valid_utf8 raw ->
      decode_b64_bytes text_in_bytes = Raise UnicodeDecodeError) /\
     (Utf8.valid_utf8 raw ->
      exists text,
        Utf8.encode text = Ok raw /\
        decode_b64_bytes text_in_bytes = Ok text)) /\
  (Base64.valid_base64 text_in_bytes = true ->
   Base64.lenient_base64 text_in_bytes) /\
  Base64.b64decode text_in_bytes
  = Base64.b64decode (List.filter Base64.significant text_in_bytes).
Proof.
  unfold decode_b64_bytes. split; [|split; [|split]].
  - intros Hno.
    destruct (Base64.b64decode text_in_bytes) as [raw|e] eqn:E64; simpl.
    + exfalso. apply Hno, b64decode_returns. by rewrite E64.
    + f_equal. by eapply a2b_base64_raises.
  - intros Hyes%b64decode_returns.
    destruct (Base64.b64decode text_in_bytes) as [raw|e] eqn:E64; [|done].
    exists raw. cbn [Py.bind]. split; [done|]. split.
    + intros Hno. destruct (Utf8.decode raw) as [text|e] eqn:E8.
      * exfalso. apply Hno, valid_utf8_decode. by exists text.
      * f_equal. by eapply decode_raises.
    + intros [text Hdec]%valid_utf8_decode. exists text.
      split; [by apply encode_decode | done].
  - apply valid_base64_lenient.
  - apply a2b_base64_significant.
Qed.

Lemma decode_b64_bytes_errors_witness :
  ~ Base64.lenient_base64 (lit "YQ=") /\
  decode_b64_bytes (lit "YQ=") = Raise binascii_Error.
Proof.
  assert (~ Base64.lenient_base64 (lit "YQ=")) as Hno.
  { intros Hyes%b64decode_returns. vm_compute in Hyes. discriminate. }
  split; [exact Hno|].
  exact (proj1 (decode_b64_bytes_errors (lit "YQ=")) Hno).
Defined.

(** The claim as the specification words it fails: a byte string that
    is not base64 (a character outside the alphabet, five characters)
    is decoded all the same. *)
Lemma decode_b64_bytes_accepts_invalid_base64 :
  Base64.valid_base64 (lit "a!Gk=") = false /\
  decode_b64_bytes (lit "a!Gk=") = Ok (lit "hi").
Proof. split; reflexivity. Qed.

(** ** [str.replace] *)

Section StrFacts.

Import Str.

Lemma strip_prefix_spec p s rest :
  strip_prefix p s = Some rest <-> s = p ++ rest.
Proof.
  revert s. induction p as [|x p IH]; intros s; simpl.
  - split; [by intros [= ->] | by intros ->].
  - destruct s as [|y s]; [by split|].
    destruct (Z.eqb_spec x y) as [->|Hne].
    + rewrite IH. split; [by intros -> | by intros [= ->]].
    + split; [done | intros [= -> ->]; done].
Qed.

Lemma startswith_spec s p : startswith s p = true <-> exists rest, s = p ++ rest.
Proof.
  unfold startswith. destruct (strip_prefix p s) as [rest|] eqn:E.
  - apply strip_prefix_spec in E. split; eauto.
  - split; [done|]. intros [rest Hr]. apply strip_prefix_spec in Hr. congruence.
Qed.

Lemma replace_scan_skip old new x rest :
  replace_scan old new (x ++ rest) (length x) = replace_scan old new rest 0.
Proof.
  induction x as [|c x IH]; simpl; [|done].
  destruct rest; reflexivity.
Qed.

Lemma replace_scan_hit old new o old' rest :
  old = o :: old' ->
  replace_scan old new (old ++ rest) 0 = new ++ replace_scan old new rest 0.
Proof.
  intros Hold. rewrite Hold at 2. cbn [app replace_scan].
  assert (startswith (o :: old' ++ rest) old = true) as ->.
  { apply startswith_spec. exists rest. by rewrite Hold. }
  f_equal. rewrite Hold. cbn [length]. rewrite Nat.sub_1_r. cbn [Nat.pred].
  apply replace_scan_skip.
Qed.

Lemma replace_scan_miss old new c s :
  startswith (c :: s) old = false ->
  replace_scan old new (c :: s) 0 = c :: replace_scan old new s 0.
Proof. intros H. cbn [replace_scan]. by rewrite H. Qed.

Lemma occurs_cons_inv old c s :
  occurs old (c :: s) -> startswith (c :: s) old = true \/ occurs old s.
Proof.
  intros ([|x p] & q & H).
  - left. apply startswith_spec. eauto.
  - right. injection H as -> ->. by exists p, q.
Qed.

Lemma replaced_all_cons old new c s r :
  startswith (c :: s) old = false ->
  replaced_all old new s r -> replaced_all old new (c :: s) (c :: r).
Proof.
  intros Hmiss H. destruct H as [s Hno | pre rest r Hfirst Hrest].
  - apply ra_none. intros [Hs|Ho]%occurs_cons_inv; [congruence | done].
  - apply (ra_first old new (c :: pre) rest r); [|done].
    intros [|x p] q Heq.
    + exfalso. assert (startswith (c :: pre ++ old ++ rest) old = true); [|congruence].
      apply startswith_spec. exists q. exact Heq.
    + injection Heq as -> Heq. simpl. apply Hfirst in Heq. lia.
Qed.

Lemma replace_scan_replaced_all old new s :
  old <> [] -> replaced_all old new s (replace_scan old new s 0).
Proof.
  intros Hold. destruct old as [|o old'] eqn:Eold; [done|]. rewrite <- Eold in *.
  remember (length s) as n eqn:Hn. revert s Hn.
  induction n as [n IH] using lt_wf_ind. intros [|c s] Hn.
  - apply ra_none. intros (p & q & H). rewrite Eold in H.
    destruct p; discriminate.
  - destruct (startswith (c :: s) old) eqn:E.
    + apply startswith_spec in E as [rest Hrest]. rewrite Hrest.
      rewrite (replace_scan_hit old new o old' rest Eold).
      apply (ra_first old new [] rest).
      * intros p q _. simpl. lia.
      * apply (IH (length rest)); [|done].
        rewrite Hn, Hrest, length_app, Eold. simpl. lia.
    + rewrite replace_scan_miss by done.
      apply replaced_all_cons; [done|]. apply (IH (length s)); [|done].
      rewrite Hn. simpl. lia.
Qed.

(** The rewritten text is determined by the text. *)
Lemma replaced_all_unique old new s r1 r2 :
  replaced_all old new s r1 -> replaced_all old new s r2 -> r1 = r2.
Proof.
  intros H1. revert r2.
  induction H1 as [s Hno | pre rest r Hfirst Hrest IH]; intros r2 H2.
  - inversion H2 as [s' Hno' | pre' rest' r' Hfirst' Hrest' Heq]; [done|].
    exfalso. apply Hno. subst s. by exists pre', rest'.
  - inversion H2 as [s' Hno' | pre' rest' r' Hfirst' Hrest' Heq]; subst.
    + exfalso. apply Hno'. by exists pre, rest.
    + assert (length pre = length pre') as Hlen.
      { apply Nat.le_antisymm;
          [by apply (Hfirst pre' rest') | by apply (Hfirst' pre rest)]. }
      apply app_inj_1 in Heq as [-> Heq]; [|done].
      apply app_inv_head in Heq as ->. f_equal. f_equal. by apply IH.
Qed.

Lemma replace_scan_no_occurrence old new s :
  old <> [] -> ~ occurs old s -> replace_scan old new s 0 = s.
Proof.
  intros Hold. induction s as [|c s IH]; intros Hno; [done|].
  rewrite replace_scan_miss.
  - f_equal. apply IH. intros (p & q & ->). apply Hno. by exists (c :: p), q.
  - apply not_true_is_false. intros [rest Hr]%startswith_spec.
    apply Hno. by exists [], rest.
Qed.

Lemma contains_spec s sub : contains s sub = true <-> occurs sub s.
Proof.
  induction s as [|c s IH]; cbn [contains].
  - rewrite orb_false_r, startswith_spec. split.
    + intros [rest Hr]. by exists [], rest.
    + intros ([|x p] & q & H); [by exists q | discriminate].
  - rewrite orb_true_iff, IH, startswith_spec. split.
    + intros [[rest Hr] | (p & q & ->)]; [by exists [], rest | by exists (c :: p), q].
    + intros ([|x p] & q & H); [left; by exists q|].
      right. injection H as -> ->. by exists p, q.
Qed.

Lemma not_contains_app_r s t sub :
  contains (s ++ t) sub = false -> contains t sub = false.
Proof.
  intros H. apply not_true_is_false. intros (p & q & ->)%contains_spec.
  apply not_true_iff_false in H. apply H, contains_spec.
  exists (s ++ p), q. by rewrite <- app_assoc.
Qed.


Lemma replace_no_occurrence s old new :
  old <> [] -> contains s old = false -> replace s old new = s.
Proof.
  intros Hold Hno. destruct old as [|o old']; [done|].
  cbn [replace]. apply replace_scan_no_occurrence; [done|].
  intros Hocc%contains_spec. congruence.
Qed.

End StrFacts.

(** ** The HLS tag decoder *)

Lemma replace_scan_Forall (P : codepoint -> Prop) old new s k :
  Forall P s -> Forall P new -> Forall P (Str.replace_scan old new s k).
Proof.
  intros Hs Hnew. revert k. induction Hs as [|c s Hc Hs IH]; intros k; [done|].
  cbn [Str.replace_scan]. destruct k; [|apply IH].
  destruct (Str.startswith (c :: s) old).
  - apply Forall_app. split; [done | apply IH].
  - constructor; [done | apply IH].
Qed.

Section HlsFacts.

Variable Playlist : Type.
Variable m3u8_loads : str -> result Playlist.

(** C2, as the code has it.  When the payload decodes to the text
    [text], [parse_ext_x_session_key_contents] hands to the parser the
    one text in which every occurrence of [#EXT-X-SESSION-KEY:METHOD],
    from left to right, has been rewritten to [#EXT-X-KEY:METHOD], and
    returns what the parser returns. *)
Theorem parse_ext_x_session_key_contents_rewrites_all
    (text_in_bytes : bytes) (text : str) :
  decode_b64_bytes text_in_bytes = Ok text ->
  exists rewritten,
    Str.replaced_all SESSION_KEY_METHOD KEY_METHOD text rewritten /\
    (forall r,
       Str.replaced_all SESSION_KEY_METHOD KEY_METHOD text r -> r = rewritten) /\
    parse_ext_x_session_key_contents Playlist m3u8_loads text_in_bytes
    = m3u8_loads rewritten.
Proof.
  intros Hdec.
  assert (Str.replaced_all SESSION_KEY_METHOD KEY_METHOD text
            (Str.replace text SESSION_KEY_METHOD KEY_METHOD)) as Hall.
  { apply (replace_scan_replaced_all SESSION_KEY_METHOD KEY_METHOD text).
    discriminate. }
  exists (Str.replace text SESSION_KEY_METHOD KEY_METHOD).
  split; [exact Hall|]. split.
  - intros r Hr. exact (replaced_all_unique _ _ _ _ _ Hr Hall).
  - unfold parse_ext_x_session_key_contents. by rewrite Hdec.
Qed.




End HlsFacts.

Lemma parse_ext_x_session_key_contents_rewrites_all_witness :
  exists rewritten,
    Str.replaced_all SESSION_KEY_METHOD KEY_METHOD
                     Sample.two_tags_text rewritten /\
    (forall r,
       Str.replaced_all SESSION_KEY_METHOD KEY_METHOD Sample.two_tags_text r ->
       r = rewritten) /\
    parse_ext_x_session_key_contents str Sample.echo Sample.two_tags_payload
    = Sample.echo rewritten.
Proof.
  apply parse_ext_x_session_key_contents_rewrites_all.
  vm_compute. reflexivity.
Defined.

(** The claim as the specification words it fails: with two session-key
    tags in the payload, the second one is rewritten as well. *)
Lemma session_key_rewrite_not_first_only :
  decode_b64_bytes Sample.two_tags_payload = Ok Sample.two_tags_text /\
  parse_ext_x_session_key_contents str Sample.echo Sample.two_tags_payload
  = Ok (lit "#EXT-X-KEY:METHOD=NONE" ++ [10] ++ lit "#EXT-X-KEY:METHOD=NONE") /\
  Str.replace_first Sample.two_tags_text SESSION_KEY_METHOD KEY_METHOD
  = lit "#EXT-X-KEY:METHOD=NONE" ++ [10]
    ++ lit "#EXT-X-SESSION-KEY:METHOD=NONE" /\
  parse_ext_x_session_key_contents str Sample.echo Sample.two_tags_payload
  <> Sample.echo
       (Str.replace_first Sample.two_tags_text SESSION_KEY_METHOD KEY_METHOD).
Proof.
  repeat split; try (vm_compute; reflexivity).
  vm_compute. discriminate.
Qed.


(** What is renamed is the tag, not the characters [SESSION-KEY].  The
    payload here holds two session-key tags and [SESSION-KEY] once more,
    in a key URI.  The code rewrites both tag names and leaves the URI
    alone; replacing the characters [SESSION-KEY] by [KEY] changes the
    URI when every occurrence is replaced, and leaves the second tag a
    session-key tag when only the first one is. *)
Lemma session_key_payload_not_renamed :
  decode_b64_bytes Sample.mixed_payload = Ok Sample.mixed_text /\
  decode_b64_bytes Sample.mixed_payload_renamed
  = Ok (Str.replace Sample.mixed_text (lit "SESSION-KEY") (lit "KEY")) /\
  decode_b64_bytes Sample.mixed_payload_renamed_once
  = Ok (Str.replace_first Sample.mixed_text (lit "SESSION-KEY") (lit "KEY")) /\
  parse_ext_x_session_key_contents str Sample.echo Sample.mixed_payload
  = Ok (lit "#EXT-X-KEY:METHOD=AES-128,URI=" ++ Sample.quote
        ++ lit "https://keys.example.com/SESSION-KEY" ++ Sample.quote ++ [10]
        ++ lit "#EXT-X-KEY:METHOD=NONE") /\
  parse_ext_x_key_contents str Sample.echo Sample.mixed_payload_renamed
  = Ok (lit "#EXT-X-KEY:METHOD=AES-128,URI=" ++ Sample.quote
        ++ lit "https://keys.example.com/KEY" ++ Sample.quote ++ [10]
        ++ lit "#EXT-X-KEY:METHOD=NONE") /\
  parse_ext_x_key_contents str Sample.echo Sample.mixed_payload_renamed_once
  = Ok (lit "#EXT-X-KEY:METHOD=AES-128,URI=" ++ Sample.quote
        ++ lit "https://keys.example.com/SESSION-KEY" ++ Sample.quote ++ [10]
        ++ lit "#EXT-X-SESSION-KEY:METHOD=NONE") /\
  parse_ext_x_session_key_contents str Sample.echo Sample.mixed_payload
  <> parse_ext_x_key_contents str Sample.echo Sample.mixed_payload_renamed /\
  parse_ext_x_session_key_contents str Sample.echo Sample.mixed_payload
  <> parse_ext_x_key_contents str Sample.echo
       Sample.mixed_payload_renamed_once.
Proof.
  repeat split; try (vm_compute; reflexivity); vm_compute; discriminate.
Qed.

(** ** The matcher and the pattern of [get_aws_auth] *)

Section ReFacts.

Import Re.

Context {A : Type}.
Implicit Types (k : str -> option A) (cls : codepoint -> bool).

Lemma forallb_Forall cls (x : str) :
  forallb cls x = true <-> Forall (fun c => cls c = true) x.
Proof.
  induction x as [|c x IH]; simpl.
  - split; [constructor | done].
  - rewrite andb_true_iff, IH. split.
    + intros [Hc Hx]. by constructor.
    + intros H. by inversion H.
Qed.

(** A successful repetition consumed a non-empty run of the class and
    the continuation accepted what was left. *)
Lemma plus_sound cls s k a :
  plus A cls s k = Some a ->
  exists x t, s = x ++ t /\ x <> [] /\ forallb cls x = true /\ k t = Some a.
Proof.
  revert a. induction s as [|c s IH]; intros a; simpl; [done|].
  destruct (cls c) eqn:Hc; [|done].
  destruct (plus A cls s k) as [a'|] eqn:Hp.
  - intros [= <-]. destruct (IH a' eq_refl) as (x & t & -> & _ & Hx & Hk).
    exists (c :: x), t. repeat split; try done. simpl. by rewrite Hc.
  - intros Hk. exists [c], s. repeat split; try done. simpl. by rewrite Hc.
Qed.

(** Backtracking finds a split whenever there is one. *)
Lemma plus_complete cls x t k a :
  x <> [] -> forallb cls x = true -> k t = Some a ->
  is_Some (plus A cls (x ++ t) k).
Proof.
  intros Hne HF Hk. apply forallb_Forall in HF.
  induction HF as [|c x Hc HF IH]; [done|].
  simpl. rewrite Hc. destruct x as [|c' x'].
  - simpl. destruct (plus A cls t k); eauto.
  - destruct IH as [a' ->]; [done|]. eauto.
Qed.

(** The greedy choice: when no longer repetition lets the rest of the
    pattern match, the repetition that stops at [t] is the one taken. *)
Lemma plus_greedy cls x t k :
  x <> [] -> forallb cls x = true ->
  plus A cls t k = None -> is_Some (k t) ->
  plus A cls (x ++ t) k = k t.
Proof.
  intros Hne HF Hlong [a Hk]. apply forallb_Forall in HF.
  induction HF as [|c x Hc HF IH]; [done|].
  simpl. rewrite Hc. destruct x as [|c' x'].
  - simpl. by rewrite Hlong, Hk.
  - rewrite IH by done. by rewrite Hk.
Qed.

End ReFacts.

Section PatternFacts.

Import Re.

(** The pattern, for any two literals. *)
Local Abbreviation shape l1 l2 :=
  (Concat (PlusClass lower_or_digit)
     (Concat (Literal l1) (Concat (Group (PlusClass dot)) (Literal l2)))).

Lemma shape_unfold l1 l2 host :
  re_match (shape l1 l2) host =
  plus Match lower_or_digit host (fun rest1 =>
    match Str.strip_prefix l1 rest1 with
    | Some rest2 =>
        plus Match dot rest2 (fun rest3 =>
          match Str.strip_prefix l2 rest3 with
          | Some rest4 =>
              Some {| after := rest4;
                      group1 := Some (firstn (length rest2 - length rest3) rest2) |}
          | None => None
          end)
    | None => None
    end).
Proof. reflexivity. Qed.

Lemma firstn_consumed {B} (x y : list B) :
  firstn (length (x ++ y) - length y) (x ++ y) = x.
Proof.
  rewrite length_app, Nat.add_sub, firstn_app, firstn_all, Nat.sub_diag.
  simpl. apply app_nil_r.
Qed.

Lemma strip_prefix_app p rest : Str.strip_prefix p (p ++ rest) = Some rest.
Proof. by apply strip_prefix_spec. Qed.

Lemma strip_prefix_self p : Str.strip_prefix p p = Some [].
Proof. apply strip_prefix_spec. by rewrite app_nil_r. Qed.

Lemma shape_sound l1 l2 host m :
  re_match (shape l1 l2) host = Some m ->
  exists id region,
    host = id ++ l1 ++ region ++ l2 ++ after m /\
    id <> [] /\ forallb lower_or_digit id = true /\
    region <> [] /\ forallb dot region = true /\
    group1 m = Some region.
Proof.
  rewrite shape_unfold.
  intros (id & rest1 & -> & Hid & Fid & H1)%plus_sound.
  destruct (Str.strip_prefix l1 rest1) as [rest2|] eqn:E1; [|done].
  apply strip_prefix_spec in E1 as ->.
  apply plus_sound in H1 as (region & rest3 & -> & Hreg & Freg & H3).
  destruct (Str.strip_prefix l2 rest3) as [rest4|] eqn:E3; [|done].
  apply strip_prefix_spec in E3 as ->. injection H3 as <-.
  exists id, region. cbn [after group1]. repeat split; try done.
  f_equal. apply firstn_consumed.
Qed.

Lemma shape_complete l1 l2 id region rest :
  id <> [] -> forallb lower_or_digit id = true ->
  region <> [] -> forallb dot region = true ->
  is_Some (re_match (shape l1 l2) (id ++ l1 ++ region ++ l2 ++ rest)).
Proof.
  intros Hid Fid Hreg Freg. rewrite shape_unfold.
  assert (exists m, plus Match dot (region ++ l2 ++ rest)
    (fun rest3 =>
       match Str.strip_prefix l2 rest3 with
       | Some rest4 =>
           Some {| after := rest4;
                   group1 := Some (firstn (length (region ++ l2 ++ rest)
                                           - length rest3)
                                     (region ++ l2 ++ rest)) |}
       | None => None
       end) = Some m) as [m Hm].
  { apply (plus_complete dot region (l2 ++ rest) _
             {| after := rest; group1 := Some region |}); [done..|].
    by rewrite strip_prefix_app, firstn_consumed. }
  eapply plus_complete; [done..|].
  rewrite strip_prefix_app. exact Hm.
Qed.

(** On a host of the exact shape the match ends at the end of the host
    and group 1 is the region, provided the repetitions cannot run into
    the literals that follow them. *)
Lemma shape_exact l1 l2 id region :
  id <> [] -> forallb lower_or_digit id = true ->
  region <> [] -> forallb dot region = true ->
  (forall t k, plus Match lower_or_digit (l1 ++ t) k = None) ->
  (forall g, plus Match dot l2 (fun rest3 =>
          match Str.strip_prefix l2 rest3 with
          | Some rest4 => Some (g rest3 rest4)
          | None => None
          end) = None) ->
  re_match (shape l1 l2) (id ++ l1 ++ region ++ l2) =
  Some {| after := []; group1 := Some region |}.
Proof.
  intros Hid Fid Hreg Freg Hstop1 Hstop2. rewrite shape_unfold.
  assert (plus Match dot (region ++ l2)
    (fun rest3 =>
       match Str.strip_prefix l2 rest3 with
       | Some rest4 =>
           Some {| after := rest4;
                   group1 := Some (firstn (length (region ++ l2) - length rest3)
                                     (region ++ l2)) |}
       | None => None
       end) = Some {| after := []; group1 := Some region |}) as Hinner.
  { rewrite plus_greedy; [cbv beta | done | done | | cbv beta].
    - by rewrite strip_prefix_self, firstn_consumed.
    - apply (Hstop2 (fun rest3 rest4 =>
        {| after := rest4;
           group1 := Some (firstn (length (region ++ l2) - length rest3)
                             (region ++ l2)) |})).
    - by rewrite strip_prefix_self. }
  rewrite plus_greedy; [cbv beta | done | done | apply Hstop1 | cbv beta].
  - by rewrite strip_prefix_app.
  - by rewrite strip_prefix_app, Hinner.
Qed.

Lemma re_match_sound host m :
  re_match API_GATEWAY_PATTERN host = Some m ->
  exists id region,
    host = id ++ lit ".execute-api." ++ region ++ lit ".amazonaws.com" ++ after m /\
    id <> [] /\ forallb lower_or_digit id = true /\
    region <> [] /\ forallb dot region = true /\
    group1 m = Some region.
Proof. apply shape_sound. Qed.

Lemma re_match_complete host :
  matches_at_start host -> is_Some (re_match API_GATEWAY_PATTERN host).
Proof.
  intros (id & region & rest & -> & Hid & Fid & Hreg & Freg).
  by apply shape_complete.
Qed.

(** [re.match] returns [None] exactly on the hosts the pattern does not
    match at their start. *)
Lemma re_match_None host :
  re_match API_GATEWAY_PATTERN host = None <-> ~ matches_at_start host.
Proof.
  split.
  - intros HN [m Hm]%re_match_complete. congruence.
  - intros Hno. destruct (re_match _ host) as [m|] eqn:E; [|done].
    exfalso. apply Hno.
    apply re_match_sound in E as (id & region & E & ? & ? & ? & ? & _).
    by exists id, region, (after m).
Qed.

Lemma re_match_exact host id region :
  api_gateway_host host id region ->
  re_match API_GATEWAY_PATTERN host =
  Some {| after := []; group1 := Some region |}.
Proof.
  intros (-> & Hid & Fid & Hreg & Freg).
  apply shape_exact; done.
Qed.

End PatternFacts.

Section GreedyFacts.

Import Re.

Context {A : Type}.
Implicit Types (k : str -> option A) (cls : codepoint -> bool).

(** The repetition taken is the longest one after which the rest of the
    pattern matches. *)
Lemma plus_longest cls s k a :
  plus A cls s k = Some a ->
  exists x t,
    s = x ++ t /\ x <> [] /\ forallb cls x = true /\ k t = Some a /\
    forall x' t',
      s = x' ++ t' -> forallb cls x' = true ->
      (length x < length x')%nat -> k t' = None.
Proof.
  revert a. induction s as [|c s IH]; intros a; simpl; [done|].
  destruct (cls c) eqn:Hc; [|done].
  destruct (plus A cls s k) as [a'|] eqn:Hp.
  - intros [= <-].
    destruct (IH a' eq_refl) as (x & t & -> & _ & Hx & Hk & Hmax).
    exists (c :: x), t. repeat split; try done.
    + simpl. by rewrite Hc.
    + intros [|c' x'] t' Heq Hcls Hlen; [simpl in Hlen; lia|].
      injection Heq as <- Heq. simpl in Hcls, Hlen.
      apply andb_true_iff in Hcls as [_ Hcls].
      apply (Hmax x' t'); [done | done | lia].
  - intros Hk. exists [c], s. repeat split; try done.
    + simpl. by rewrite Hc.
    + intros [|c' [|c'' x']] t' Heq Hcls Hlen; try (simpl in Hlen; lia).
      injection Heq as <- Heq. simpl in Hcls.
      apply andb_true_iff in Hcls as [_ Hcls].
      destruct (k t') as [b|] eqn:Hkt; [|done].
      exfalso.
      destruct (plus_complete cls (c'' :: x') t' k b) as [b' Hb']; try done.
      subst s. simpl in Hb', Hp. congruence.
Qed.

End GreedyFacts.

(** A run of the class followed by a character outside it is read in one
    way only. *)
Lemma class_run_unique (cls : codepoint -> bool) x x' h t t' :
  forallb cls x = true -> forallb cls x' = true -> cls h = false ->
  x ++ h :: t = x' ++ h :: t' -> x = x' /\ t = t'.
Proof.
  revert x'. induction x as [|c x IH]; intros [|c' x'] Hx Hx' Hh Heq;
    simpl in *.
  - by injection Heq.
  - injection Heq as -> _. apply andb_true_iff in Hx' as [? _]. congruence.
  - injection Heq as -> _. apply andb_true_iff in Hx as [? _]. congruence.
  - injection Heq as -> Heq.
    apply andb_true_iff in Hx as [_ Hx]. apply andb_true_iff in Hx' as [_ Hx'].
    destruct (IH x' Hx Hx' Hh Heq) as [-> ->]. done.
Qed.

Lemma re_match_greedy host m :
  Re.re_match API_GATEWAY_PATTERN host = Some m ->
  exists id region,
    host = id ++ lit ".execute-api." ++ region ++ lit ".amazonaws.com" ++ Re.after m /\
    id <> [] /\ forallb Re.lower_or_digit id = true /\
    region <> [] /\ forallb Re.dot region = true /\
    Re.group1 m = Some region /\
    forall id' region' rest',
      host = id' ++ lit ".execute-api." ++ region' ++ lit ".amazonaws.com" ++ rest' ->
      forallb Re.lower_or_digit id' = true ->
      forallb Re.dot region' = true ->
      id' = id /\ (length region' <= length region)%nat.
Proof.
  change (Re.re_match API_GATEWAY_PATTERN host) with
    (Re.plus Re.Match Re.lower_or_digit host (fun rest1 =>
       match Str.strip_prefix (lit ".execute-api.") rest1 with
       | Some rest2 =>
           Re.plus Re.Match Re.dot rest2 (fun rest3 =>
             match Str.strip_prefix (lit ".amazonaws.com") rest3 with
             | Some rest4 =>
                 Some {| Re.after := rest4;
                         Re.group1 := Some (firstn (length rest2 - length rest3) rest2) |}
             | None => None
             end)
       | None => None
       end)).
  generalize (lit ".amazonaws.com"). intros l2.
  intros (id & rest1 & -> & Hid & Fid & H1)%plus_sound.
  destruct (Str.strip_prefix _ rest1) as [rest2|] eqn:E1; [|done].
  apply strip_prefix_spec in E1 as ->.
  apply plus_longest in H1 as (region & rest3 & -> & Hreg & Freg & H3 & Hmax).
  destruct (Str.strip_prefix l2 rest3) as [rest4|] eqn:E3; [|done].
  apply strip_prefix_spec in E3 as ->. injection H3 as <-.
  exists id, region. cbn [Re.after Re.group1].
  split; [done|]. split; [done|]. split; [done|]. split; [done|].
  split; [done|]. split; [f_equal; apply firstn_consumed|].
  intros id' region' rest' Heq Fid' Freg'.
  destruct (class_run_unique Re.lower_or_digit id id' 46
              (lit "execute-api." ++ region ++ l2 ++ rest4)
              (lit "execute-api." ++ region' ++ l2 ++ rest')
              Fid Fid' eq_refl Heq) as [<- Htail].
  split; [done|]. apply app_inv_head in Htail.
  destruct (le_lt_dec (length region') (length region)) as [|Hlt]; [done|].
  exfalso. specialize (Hmax region' (l2 ++ rest') Htail Freg' Hlt).
  cbv beta in Hmax. by rewrite strip_prefix_app in Hmax.
Qed.

(** ** [get_aws_auth] *)

(** C1, as the code has it.  Let [urlparse] give the URL the network
    location [netloc].  The pattern is matched at the start of [netloc]
    only.  When it does not match there, [get_aws_auth] raises the
    [AttributeError] of the [None] match, whatever the credentials are.
    When it matches, the outcome is that of the credential resolver: its
    error, or the auth object built from its credentials with the whole
    of [netloc] as host (what follows [.amazonaws.com] included), the
    service name [execute-api] and as region the longest text the
    pattern allows between [.execute-api.] and an [.amazonaws.com].
    When [netloc] is exactly [<id>.execute-api.<region>.amazonaws.com],
    that region is [<region>]. *)
Theorem get_aws_auth_host_pattern
    (urlparse : str -> result ParseResult)
    (get_credentials : result Credentials)
    (url : str) (parsed : ParseResult) :
  urlparse url = Ok parsed ->
  (~ matches_at_start (netloc parsed) ->
   get_aws_auth urlparse get_credentials url = Raise AttributeError) /\
  (matches_at_start (netloc parsed) ->
   exists id region rest,
     netloc parsed
     = id ++ lit ".execute-api." ++ region ++ lit ".amazonaws.com" ++ rest /\
     id <> [] /\ forallb Re.lower_or_digit id = true /\
     region <> [] /\ forallb Re.dot region = true /\
     (forall id' region' rest',
        netloc parsed
        = id' ++ lit ".execute-api." ++ region' ++ lit ".amazonaws.com"
          ++ rest' ->
        forallb Re.lower_or_digit id' = true ->
        forallb Re.dot region' = true ->
        id' = id /\ (length region' <= length region)%nat) /\
     get_aws_auth urlparse get_credentials url =
     match get_credentials with
     | Ok creds =>
         Ok {| aws_access_key := cred_access_key creds;
               aws_secret_access_key := cred_secret_access_key creds;
               aws_token := cred_token creds;
               aws_host := netloc parsed;
               aws_region := Some region;
               aws_service := lit "execute-api" |}
     | Raise e => Raise e
     end) /\
  (forall id region creds,
     api_gateway_host (netloc parsed) id region ->
     get_credentials = Ok creds ->
     get_aws_auth urlparse get_credentials url =
     Ok {| aws_access_key := cred_access_key creds;
           aws_secret_access_key := cred_secret_access_key creds;
           aws_token := cred_token creds;
           aws_host := netloc parsed;
           aws_region := Some region;
           aws_service := lit "execute-api" |}).
Proof.
  intros Hparse. unfold get_aws_auth. rewrite Hparse. cbn [Py.bind].
  split; [|split].
  - intros Hno. apply re_match_None in Hno. by rewrite Hno.
  - intros [m Hm]%re_match_complete. rewrite Hm.
    apply re_match_greedy in Hm
      as (id & region & Hhost & Hid & Fid & Hreg & Freg & Hgroup & Hmax).
    exists id, region, (Re.after m). rewrite Hgroup.
    do 6 (split; [done|]). by destruct get_credentials.
  - intros id region creds Hhost Hcreds.
    rewrite (re_match_exact _ id region Hhost), Hcreds. reflexivity.
Qed.

Lemma get_aws_auth_host_pattern_witness :
  get_aws_auth Sample.urlparse (Ok Sample.credentials) Sample.url =
  Ok {| aws_access_key := lit "AKIDEXAMPLE";
        aws_secret_access_key := lit "wJalrXUtnFEMI";
        aws_token := None;
        aws_host := Sample.host;
        aws_region := Some (lit "us-east-1");
        aws_service := lit "execute-api" |}.
Proof.
  refine (proj2 (proj2 (get_aws_auth_host_pattern Sample.urlparse
                          (Ok Sample.credentials) Sample.url _ eq_refl))
            (lit "abc123") (lit "us-east-1") Sample.credentials _ eq_refl).
  repeat split; discriminate.
Defined.

(** The claim as the specification words it fails: a network location
    that goes on after [.amazonaws.com] is not of the shape
    [<id>.execute-api.<region>.amazonaws.com], and [get_aws_auth]
    returns an auth object for it, with the whole location as host. *)
Lemma get_aws_auth_accepts_longer_host :
  Cases.urlparse_suffix Cases.suffix_url
  = Ok {| scheme := lit "https"; netloc := Cases.suffix_host;
          path := lit "/prod"; params := []; query := []; fragment := [] |} /\
  (forall id region, ~ api_gateway_host Cases.suffix_host id region) /\
  get_aws_auth Cases.urlparse_suffix (Ok Sample.credentials) Cases.suffix_url
  = Ok {| aws_access_key := lit "AKIDEXAMPLE";
          aws_secret_access_key := lit "wJalrXUtnFEMI";
          aws_token := None;
          aws_host := Cases.suffix_host;
          aws_region := Some (lit "us-east-1");
          aws_service := lit "execute-api" |}.
Proof.
  split; [reflexivity|]. split; [|reflexivity].
  intros id region (Hhost & _). apply (f_equal (@rev _)) in Hhost.
  rewrite !rev_app_distr in Hhost. vm_compute in Hhost. discriminate.
Qed.

(** ** The XML tag counter *)

Lemma dict_zip_keys_values (d : gmap str Z) :
  dict (zip (keys d) (values d)) = d.
Proof.
  unfold keys, values. rewrite zip_fst_snd.
  unfold dict.
  rewrite <- (list_to_map_to_list d) at 2.
  pose proof (NoDup_fst_map_to_list d) as Hnd.
  generalize dependent (map_to_list d). intros l Hnd.
  assert (forall acc, foldl (λ (d0 : gmap str Z) kv, <[kv.1:=kv.2]> d0) acc l = list_to_map l ∪ acc) as H.
  { induction l as [|[k v] l IH]; intros acc; simpl.
    - by rewrite (left_id_L ∅ (∪)).
    - inversion Hnd; subst. rewrite IH by done.
      apply map_eq. intros i. rewrite !lookup_union.
      destruct (decide (k = i)) as [->|Hne].
      + rewrite !lookup_insert_eq.
        rewrite (not_elem_of_list_to_map_1 l i) by done. by destruct (acc !! i).
      + by rewrite !lookup_insert_ne by done. }
  rewrite H. by rewrite (right_id_L ∅ (∪)).
Qed.

Lemma Counter_step_lookup (xs : list str) (acc : gmap str Z) (t : str) :
  foldl (fun c x => <[x := default 0 (c !! x) + 1]> c) acc xs !! t =
  if decide (occurrences t xs = 0) then acc !! t
  else Some (default 0 (acc !! t) + occurrences t xs).
Proof.
  revert acc. induction xs as [|x xs IH]; intros acc; simpl.
  - done.
  - rewrite IH. unfold occurrences. rewrite filter_cons.
    destruct (decide (x = t)) as [->|Hne]; simpl.
    + rewrite lookup_insert_eq. simpl.
      repeat case_decide; try lia; f_equal; lia.
    + rewrite lookup_insert_ne by done.
      repeat case_decide; try lia; done.
Qed.

Lemma Counter_lookup (xs : list str) (t : str) :
  Counter xs !! t =
  if decide (occurrences t xs = 0) then None else Some (occurrences t xs).
Proof.
  unfold Counter. rewrite Counter_step_lookup, lookup_empty. simpl.
  case_decide; done.
Qed.

Lemma occurrences_nonneg t xs : 0 <= occurrences t xs.
Proof. unfold occurrences. lia. Qed.

Lemma occurrences_app t xs ys :
  occurrences t (xs ++ ys) = occurrences t xs + occurrences t ys.
Proof. unfold occurrences. rewrite filter_app, length_app. lia. Qed.

Lemma occurrences_Permutation t xs ys :
  Permutation xs ys -> occurrences t xs = occurrences t ys.
Proof. intros H. unfold occurrences. by rewrite H. Qed.

Lemma occurrences_pos_iff t xs : 0 < occurrences t xs <-> t ∈ xs.
Proof.
  unfold occurrences. split.
  - intros H. destruct (filter (λ x, x = t) xs) as [|y l] eqn:E; simpl in H; [lia|].
    assert (y ∈ filter (λ x, x = t) xs) as Hy by (rewrite E; left).
    apply list_elem_of_filter in Hy as [-> ?]. done.
  - intros H. assert (t ∈ filter (λ x, x = t) xs) as Hy by (by apply list_elem_of_filter).
    destruct (filter (λ x, x = t) xs); [inversion Hy| simpl; lia].
Qed.

Lemma count_of_Counter xs t : count_of (Counter xs) t = occurrences t xs.
Proof.
  unfold count_of. rewrite Counter_lookup. case_decide; simpl; lia.
Qed.

Lemma Element_ind' (P : Element -> Prop) :
  (forall t a x l cs, Forall P cs -> P (Elem t a x l cs)) ->
  forall e, P e.
Proof.
  intros step. fix IH 1. intros [t a x l cs]. apply step.
  induction cs as [|c cs IHcs]; constructor; [apply IH | exact IHcs].
Qed.

Lemma end_order_unfold t a x l cs :
  end_order (Elem t a x l cs) = flat_map end_order cs ++ [Elem t a x l cs].
Proof. reflexivity. Qed.

Lemma length_end_order e : length (end_order e) = element_count e.
Proof.
  induction e as [t a x l cs IH] using Element_ind'.
  rewrite end_order_unfold, length_app. simpl.
  rewrite Nat.add_1_r. f_equal.
  induction IH as [|c cs Hc _ IHcs]; simpl; [done|].
  rewrite length_app. congruence.
Qed.

Lemma flat_map_tags_Forall2 (R : Element -> Element -> Prop) cs1 cs2 :
  Forall2 R cs1 cs2 ->
  Forall (fun c => forall c', R c c' -> tags_of c ≡ₚ tags_of c') cs1 ->
  map tag (flat_map end_order cs1) ≡ₚ map tag (flat_map end_order cs2).
Proof.
  induction 1 as [|c c' cs cs' Hc _ IH]; intros HF; simpl; [done|].
  inversion HF; subst. rewrite !map_app.
  apply Permutation_app; [by apply H1 | by apply IH].
Qed.

Lemma flat_map_tags_Permutation cs1 cs2 :
  cs1 ≡ₚ cs2 ->
  map tag (flat_map end_order cs1) ≡ₚ map tag (flat_map end_order cs2).
Proof.
  induction 1; simpl; rewrite ?map_app.
  - done.
  - by apply Permutation_app.
  - rewrite !app_assoc. apply Permutation_app; [apply Permutation_app_comm | done].
  - etransitivity; eauto.
Qed.

Lemma siblings_permuted_tags r1 r2 :
  siblings_permuted r1 r2 -> tags_of r1 ≡ₚ tags_of r2.
Proof.
  revert r2. induction r1 as [t a x l cs IH] using Element_ind'.
  intros r2 H. inversion H as [t' a1 a2 x1 x2 l1 l2 cs1 cs' cs2 HF HP]; subst.
  unfold tags_of. rewrite !end_order_unfold, !map_app. simpl.
  apply Permutation_app; [|done].
  etransitivity; [|by apply flat_map_tags_Permutation].
  eapply flat_map_tags_Forall2; eauto.
Qed.

Lemma tags_of_with_tail tl e : tags_of (with_tail tl e) = tags_of e.
Proof.
  destruct e as [t a x l cs]. unfold tags_of. simpl with_tail.
  by rewrite !end_order_unfold, !map_app.
Qed.

Lemma Counter_Permutation xs ys : xs ≡ₚ ys -> Counter xs = Counter ys.
Proof.
  intros H. apply map_eq. intros t. rewrite !Counter_lookup.
  by rewrite (occurrences_Permutation t xs ys H).
Qed.

(** On a document, [count_tags] is the counter of its tags. *)
Lemma count_tags_document (iterparse : str -> result (list ParseItem))
    xml root :
  document iterparse xml root ->
  count_tags iterparse xml = Ok (Counter (tags_of root)).
Proof.
  intros (items & Hit & Hel). unfold count_tags. rewrite Hit. simpl.
  rewrite dict_zip_keys_values. f_equal. f_equal. unfold tags_of.
  rewrite <- Hel, map_map. apply map_ext. by intros [].
Qed.

Lemma sum_Permutation (l1 l2 : list Z) :
  l1 ≡ₚ l2 -> foldr Z.add 0 l1 = foldr Z.add 0 l2.
Proof. induction 1; simpl; lia. Qed.

Lemma sum_of_counts_insert_fresh (d : gmap str Z) k v :
  d !! k = None -> sum_of_counts (<[k:=v]> d) = v + sum_of_counts d.
Proof.
  intros H. unfold sum_of_counts, values.
  rewrite (sum_Permutation _ (((k, v) :: map_to_list d).*2)).
  - done.
  - apply fmap_Permutation. by apply map_to_list_insert.
Qed.

Lemma sum_of_counts_insert (d : gmap str Z) k v :
  sum_of_counts (<[k:=v]> d) = v + sum_of_counts d - count_of d k.
Proof.
  unfold count_of. destruct (d !! k) as [v0|] eqn:E; simpl.
  - rewrite <- (insert_delete_eq d k v).
    rewrite <- (insert_delete_id d k v0) at 2 by done.
    rewrite !sum_of_counts_insert_fresh by apply lookup_delete_eq. lia.
  - rewrite sum_of_counts_insert_fresh by done. lia.
Qed.

Lemma sum_of_counts_Counter xs : sum_of_counts (Counter xs) = Z.of_nat (length xs).
Proof.
  unfold Counter.
  assert (forall acc,
    sum_of_counts (foldl (fun c x => <[x := default 0 (c !! x) + 1]> c) acc xs)
    = sum_of_counts acc + Z.of_nat (length xs)) as H.
  { induction xs as [|x xs IH]; intros acc; simpl length; simpl foldl; [lia|].
    rewrite IH, sum_of_counts_insert. unfold count_of. lia. }
  rewrite H. unfold sum_of_counts, values. rewrite map_to_list_empty. simpl. lia.
Qed.

(** C8.  The table of [count_child_element_tags_for_element] has a key
    for exactly the tags of the immediate children of the element, each
    with the number of immediate children that carry it; the counts add
    up to the number of children.  Nothing below the children and not
    the element itself is counted. *)
Theorem count_child_element_tags_immediate_children
    (parent_element : Element) :
  (forall t,
     count_child_element_tags_for_element parent_element !! t =
     if decide (t ∈ map tag (children parent_element))
     then Some (occurrences t (map tag (children parent_element)))
     else None) /\
  sum_of_counts (count_child_element_tags_for_element parent_element)
  = Z.of_nat (length (children parent_element)).
Proof.
  unfold count_child_element_tags_for_element.
  change (fun element : Element => tag element) with tag.
  rewrite dict_zip_keys_values. split.
  - intros t. rewrite Counter_lookup.
    pose proof (occurrences_pos_iff t (map tag (children parent_element)))
      as [H1 H2].
    pose proof (occurrences_nonneg t (map tag (children parent_element))).
    repeat case_decide; try done.
    + exfalso. apply H2 in H3. lia.
    + exfalso. apply H3, H1. lia.
  - by rewrite sum_of_counts_Counter, length_map.
Qed.

Lemma tags_of_unfold t a x l cs :
  tags_of (Elem t a x l cs) = flat_map tags_of cs ++ [t].
Proof.
  unfold tags_of. rewrite end_order_unfold, map_app. simpl. f_equal.
  induction cs as [|c cs IH]; simpl; [done|]. by rewrite map_app, IH.
Qed.

Lemma occurrences_flat_map t (f : Element -> list str) cs :
  occurrences t (flat_map f cs) =
  foldr Z.add 0 (map (fun c => occurrences t (f c)) cs).
Proof.
  induction cs as [|c cs IH]; simpl; [done|].
  by rewrite occurrences_app, IH.
Qed.

Lemma occurrences_singleton t u :
  occurrences t [u] = if decide (t = u) then 1 else 0.
Proof.
  unfold occurrences. rewrite filter_cons, filter_nil.
  destruct (decide (u = t)); case_decide; subst; simpl; done.
Qed.

(** C6.  Two well-formed documents whose trees are the same up to the
    order of sibling elements, at any depth, get the same table from
    [count_tags].  The text between the elements need not move with
    them: a printed document and the same document with siblings in
    another order are such a pair. *)
Theorem count_tags_order_independent
    (iterparse : str -> result (list ParseItem))
    (xml1 xml2 : str) (root1 root2 : Element) :
  document iterparse xml1 root1 ->
  document iterparse xml2 root2 ->
  siblings_permuted root1 root2 ->
  exists d, count_tags iterparse xml1 = Ok d /\ count_tags iterparse xml2 = Ok d.
Proof.
  intros H1 H2 Hp. exists (Counter (tags_of root1)). split.
  - by apply count_tags_document.
  - rewrite (count_tags_document _ _ _ H2). f_equal.
    symmetry. by apply Counter_Permutation, siblings_permuted_tags.
Qed.

(** C7.  For a well-formed document, the count [count_tags] gives a
    tag is the sum of the counts the tag gets when each top-level
    subtree of the root is counted as a document of its own, plus one
    when the tag is the tag of the root.  The document of a subtree is
    a text whose tree is the subtree, with whatever tail the parser
    gives the root of a document (none, for a real parser) in place of
    the text that followed the subtree in its parent. *)
Theorem count_tags_additive
    (iterparse : str -> result (list ParseItem))
    (xml : str) (root : Element) (subdocs : list str) :
  document iterparse xml root ->
  Forall2 (fun sub c => exists tl, document iterparse sub (with_tail tl c))
          subdocs (children root) ->
  exists d ds,
    count_tags iterparse xml = Ok d /\
    Forall2 (fun sub di => count_tags iterparse sub = Ok di) subdocs ds /\
    forall t,
      count_of d t =
      foldr Z.add 0 (map (fun di => count_of di t) ds)
      + (if decide (t = tag root) then 1 else 0).
Proof.
  intros Hdoc Hsub.
  exists (Counter (tags_of root)), (map (fun c => Counter (tags_of c)) (children root)).
  split; [by apply count_tags_document|]. split.
  - induction Hsub as [|s c ss cs [tl Hs] _ IH]; simpl; constructor; [|done].
    rewrite <- (tags_of_with_tail tl c). by apply count_tags_document.
  - intros t. rewrite count_of_Counter.
    destruct root as [t0 a x l cs]. simpl.
    rewrite tags_of_unfold, occurrences_app, occurrences_flat_map,
      occurrences_singleton, map_map.
    f_equal. f_equal. apply map_ext. intros c. by rewrite count_of_Counter.
Qed.

(** C10.  For a well-formed document, [count_tags] returns a table whose
    keys are exactly the tags of the elements of the document, whose
    values are positive, in which a tag's value is the number of
    elements that carry it, and whose values add up to the number of
    elements. *)
Theorem count_tags_frequency_table
    (iterparse : str -> result (list ParseItem))
    (xml : str) (root : Element) :
  document iterparse xml root ->
  exists d,
    count_tags iterparse xml = Ok d /\
    (forall t, is_Some (d !! t) <-> exists e, e ∈ end_order root /\ tag e = t) /\
    (forall t v, d !! t = Some v -> 0 < v) /\
    (forall t, count_of d t = occurrences t (map tag (end_order root))) /\
    sum_of_counts d = Z.of_nat (element_count root).
Proof.
  intros Hdoc. exists (Counter (tags_of root)).
  split; [by apply count_tags_document|].
  repeat split.
  - intros [v Hv]. rewrite Counter_lookup in Hv. case_decide; [done|].
    pose proof (occurrences_nonneg t (tags_of root)).
    assert (t ∈ tags_of root) as Hin by (apply occurrences_pos_iff; lia).
    apply list_elem_of_fmap in Hin as (e & -> & He). eauto.
  - intros (e & He & <-). rewrite Counter_lookup.
    assert (0 < occurrences (tag e) (tags_of root)).
    { apply occurrences_pos_iff. unfold tags_of. apply list_elem_of_fmap. eauto. }
    case_decide; [lia | eauto].
  - intros t v Hv. rewrite Counter_lookup in Hv.
    pose proof (occurrences_nonneg t (tags_of root)).
    case_decide; [done|]. injection Hv as <-. lia.
  - intros t. apply count_of_Counter.
  - rewrite sum_of_counts_Counter. unfold tags_of.
    by rewrite length_map, length_end_order.
Qed.

Lemma printed_documents :
  document Cases.iterparse_printed Cases.printed_xml Cases.printed /\
  document Cases.iterparse_printed Cases.printed_swapped_xml
           Cases.printed_swapped /\
  Forall2 (fun sub c => document Cases.iterparse_printed sub (with_tail None c))
          [lit "<ContentKeyList/>"; lit "<DRMSystemList/>"]
          (children Cases.printed).
Proof.
  repeat split; repeat constructor;
    eexists; (split; [vm_compute; reflexivity | reflexivity]).
Qed.

Lemma sample_documents :
  document Sample.iterparse Sample.cpix_xml Sample.cpix /\
  document Sample.iterparse Sample.cpix_swapped_xml Sample.cpix_swapped /\
  document Sample.iterparse Sample.content_keys_xml Sample.content_keys /\
  document Sample.iterparse Sample.drm_systems_xml Sample.drm_systems.
Proof.
  repeat split; eexists; (split; [vm_compute; reflexivity | reflexivity]).
Qed.

Lemma siblings_permuted_refl e : siblings_permuted e e.
Proof.
  induction e as [t a x l cs IH] using Element_ind'.
  apply (sp_node t a a x x l l cs cs cs); [|done].
  induction IH; constructor; auto.
Qed.

Lemma printed_siblings_permuted :
  siblings_permuted Cases.printed Cases.printed_swapped.
Proof.
  apply (sp_node _ _ _ _ _ _ _ _
           [ Elem (lit "ContentKeyList") [] None (Some [10]) [];
             Elem (lit "DRMSystemList") [] None (Some [10; 32]) [] ]).
  - repeat (constructor; [by apply (sp_node _ _ _ _ _ _ _ [] [] [])|]).
    constructor.
  - apply perm_swap.
Qed.

Lemma count_tags_order_independent_witness :
  exists d,
    count_tags Cases.iterparse_printed Cases.printed_xml = Ok d /\
    count_tags Cases.iterparse_printed Cases.printed_swapped_xml = Ok d.
Proof.
  apply (count_tags_order_independent Cases.iterparse_printed
           Cases.printed_xml Cases.printed_swapped_xml
           Cases.printed Cases.printed_swapped).
  - apply printed_documents.
  - apply printed_documents.
  - apply printed_siblings_permuted.
Defined.

Lemma count_tags_additive_witness :
  exists d ds,
    count_tags Cases.iterparse_printed Cases.printed_xml = Ok d /\
    Forall2 (fun sub di => count_tags Cases.iterparse_printed sub = Ok di)
            [lit "<ContentKeyList/>"; lit "<DRMSystemList/>"] ds /\
    forall t,
      count_of d t =
      foldr Z.add 0 (map (fun di => count_of di t) ds)
      + (if decide (t = lit "CPIX") then 1 else 0).
Proof.
  apply (count_tags_additive Cases.iterparse_printed Cases.printed_xml
           Cases.printed [lit "<ContentKeyList/>"; lit "<DRMSystemList/>"]).
  - apply printed_documents.
  - eapply Forall2_impl; [apply printed_documents|].
    intros sub c Hdoc. by exists None.
Defined.

Lemma count_tags_frequency_table_witness :
  exists d,
    count_tags Sample.iterparse Sample.cpix_xml = Ok d /\
    (forall t, is_Some (d !! t) <->
               exists e, e ∈ end_order Sample.cpix /\ tag e = t) /\
    (forall t v, d !! t = Some v -> 0 < v) /\
    (forall t, count_of d t = occurrences t (map tag (end_order Sample.cpix))) /\
    sum_of_counts d = Z.of_nat (element_count Sample.cpix).
Proof.
  apply count_tags_frequency_table. apply sample_documents.
Defined.

(** ** The fixture loader *)

Section FixtureFacts.

Import Str Utf8.

Lemma lstrip_spec s :
  exists l, s = l ++ lstrip s /\ forallb isspace l = true /\
            match lstrip s with c :: _ => isspace c = false | [] => True end.
Proof.
  induction s as [|c s (l & Hl & Hsp & Hhd)]; [by exists []|].
  cbn [lstrip]. destruct (isspace c) eqn:Hc.
  - exists (c :: l). simpl. rewrite Hc, Hsp. repeat split; [congruence | done].
  - exists []. by repeat split.
Qed.

(** [strip] removes white space, and only white space, from both ends. *)
Lemma strip_spec s :
  exists l r, s = l ++ strip s ++ r /\
              forallb isspace l = true /\ forallb isspace r = true.
Proof.
  unfold strip, rstrip.
  destruct (lstrip_spec s) as (l & Hl & Hlsp & _).
  destruct (lstrip_spec (rev (lstrip s))) as (r & Hr & Hrsp & _).
  exists l, (rev r). repeat split; [|done|].
  - rewrite Hl at 1. f_equal. rewrite <- rev_app_distr, <- Hr.
    by rewrite rev_involutive.
  - rewrite forallb_forall in *. intros c Hc. apply Hrsp. by apply in_rev.
Qed.

Lemma translate_newlines_no_cr s : 13 ∉ s -> translate_newlines s = s.
Proof.
  induction s as [|c s IH]; [done|]. intros [Hc Hs]%not_elem_of_cons.
  cbn [translate_newlines]. destruct (Z.eqb_spec c 13); [done|].
  f_equal. by apply IH.
Qed.

Lemma translate_newlines_scalar s :
  Forall scalar_value s -> Forall scalar_value (translate_newlines s).
Proof.
  remember (length s) as n eqn:Hn. revert s Hn.
  induction n as [n IH] using lt_wf_ind. intros [|c s] Hn HF; [done|].
  inversion_clear HF as [|? ? Hc Hs]. cbn [translate_newlines].
  assert (scalar_value 10) as H10 by (unfold scalar_value; lia).
  destruct (Z.eqb_spec c 13).
  - destruct s as [|d s']; [constructor; [exact H10 | constructor]|].
    inversion_clear Hs as [|? ? Hd Hs'].
    destruct (Z.eqb_spec d 10); constructor; try done.
    + apply (IH (length s')); [subst n; simpl; lia | done | done].
    + apply (IH (length (d :: s'))); [subst n; simpl; lia | done | by constructor].
  - constructor; [done|].
    apply (IH (length s)); [subst n; simpl; lia | done | done].
Qed.

Lemma translate_newlines_nil s : translate_newlines s = [] <-> s = [].
Proof.
  split; [|by intros ->]. destruct s as [|c s]; [done|].
  cbn [translate_newlines].
  destruct (c =? 13); [|done]. destruct s as [|d s']; [done|].
  by destruct (d =? 10).
Qed.

Lemma encode_char_nonempty c bs : encode_char c = Ok bs -> bs <> [].
Proof.
  unfold encode_char.
  repeat match goal with
         | |- context [if ?b then _ else _] => destruct b
         end; intros [= <-]; discriminate.
Qed.

Lemma encode_nil s bs : encode s = Ok bs -> (bs = [] <-> s = []).
Proof.
  destruct s as [|c s]; [by intros [= <-]|].
  cbn [encode].
  intros (b & Hb & (bs' & _ & [= <-])%bind_Ok_inv)%bind_Ok_inv.
  apply encode_char_nonempty in Hb. split; [|done].
  intros [? _]%app_eq_nil. done.
Qed.

(** An ASCII character of a text is a byte of its encoding. *)
Lemma encode_ascii_elem s bs c :
  encode s = Ok bs -> 0 <= c < 128 -> c ∈ s -> c ∈ bs.
Proof.
  revert bs. induction s as [|x s IH]; intros bs; [by intros _ _ ?%elem_of_nil|].
  cbn [encode].
  intros (b & Hb & (bs' & Hbs' & [= <-])%bind_Ok_inv)%bind_Ok_inv Hc Hin.
  apply elem_of_app. apply elem_of_cons in Hin as [->|Hin].
  - left. unfold encode_char in Hb.
    destruct (Z.ltb_spec x 0); [lia|]. destruct (Z.ltb_spec x 128); [|lia].
    injection Hb as <-. by left.
  - right. by eapply IH.
Qed.

Lemma lstrip_snoc s c :
  isspace c = false -> lstrip (s ++ [c]) = lstrip s ++ [c].
Proof.
  intros Hc. induction s as [|d s IH]; simpl; [by rewrite Hc|].
  by destruct (isspace d).
Qed.

(** What [strip] returns has no white space at either end. *)
Lemma strip_ends s :
  match strip s with c :: _ => isspace c = false | [] => True end /\
  match rev (strip s) with c :: _ => isspace c = false | [] => True end.
Proof.
  unfold strip, rstrip. split.
  - destruct (lstrip_spec s) as (_ & _ & _ & Hhd).
    destruct (lstrip s) as [|c m]; [done|].
    cbn [rev]. rewrite lstrip_snoc by done.
    rewrite rev_app_distr. done.
  - rewrite rev_involutive.
    by destruct (lstrip_spec (rev (lstrip s))) as (_ & _ & _ & Hhd).
Qed.

(** A name of white space only is stripped to the empty name. *)
Lemma strip_all_spaces s : forallb isspace s = true -> strip s = [].
Proof.
  intros Hs. destruct (strip_spec s) as (l & r & Hdec & _ & _).
  destruct (strip_ends s) as [Hhd _].
  destruct (strip s) as [|c m]; [done|].
  rewrite forallb_forall in Hs. rewrite (Hs c) in Hhd; [done|].
  rewrite Hdec. apply in_or_app. right. by left.
Qed.

Lemma fixtures_path_nul name :
  existsb (Z.eqb 0) (FIXTURES_DIR ++ name) = true <-> 0 ∈ name.
Proof.
  rewrite existsb_app. change (existsb (Z.eqb 0) FIXTURES_DIR) with false.
  cbn [orb]. rewrite existsb_exists. split.
  - intros (c & Hin & ->%Z.eqb_eq). by apply list_elem_of_In.
  - intros Hin. exists 0. split; [by apply list_elem_of_In | done].
Qed.

(** C9, as the code has it.  The path opened is the fixtures directory
    followed by the file name without the white space at its two ends
    (the fixtures directory itself, when the name is empty or white
    space only).  A name with a NUL character is refused with
    [ValueError].  Otherwise the error of [open] is the error of the
    call: [FileNotFoundError] when nothing has that path,
    [IsADirectoryError] when it is a directory, [PermissionError] when
    it may not be read, and any other error as it is; so is the error
    of the locale's decoder on the bytes of the file.  When the bytes
    decode to a text, the result is the UTF-8 encoding of that text
    with its line ends translated to [\n]; when the locale's encoding
    is UTF-8, these are bytes that decode to the translated text, equal
    to the bytes on disk when the file has no carriage return, and
    empty exactly when the file is empty. *)
Theorem read_xml_file_contents_spec
    (locale_decode : bytes -> result str) (disk : str -> FileState)
    (filename : str) :
  (exists l r, filename = l ++ strip filename ++ r /\
               forallb isspace l = true /\ forallb isspace r = true) /\
  match strip filename with c :: _ => isspace c = false | [] => True end /\
  match rev (strip filename) with c :: _ => isspace c = false | [] => True end /\
  (forallb isspace filename = true ->
   FIXTURES_DIR ++ strip filename = FIXTURES_DIR) /\
  (0 ∈ strip filename ->
   read_xml_file_contents locale_decode disk filename = Raise ValueError) /\
  (0 ∉ strip filename ->
   match disk (FIXTURES_DIR ++ strip filename) with
   | Missing =>
       read_xml_file_contents locale_decode disk filename
       = Raise FileNotFoundError
   | Directory =>
       read_xml_file_contents locale_decode disk filename
       = Raise IsADirectoryError
   | Unreadable =>
       read_xml_file_contents locale_decode disk filename
       = Raise PermissionError
   | OtherFailure e =>
       read_xml_file_contents locale_decode disk filename = Raise e
   | Regular raw =>
       match locale_decode raw with
       | Raise e =>
           read_xml_file_contents locale_decode disk filename = Raise e
       | Ok text =>
           read_xml_file_contents locale_decode disk filename
           = encode (translate_newlines text) /\
           (locale_decode raw = decode raw ->
            exists out,
              read_xml_file_contents locale_decode disk filename = Ok out /\
              decode out = Ok (translate_newlines text) /\
              (13 ∉ raw -> out = raw) /\
              (out = [] <-> raw = []))
       end
   end).
Proof.
  split; [apply strip_spec|].
  split; [apply strip_ends|]. split; [apply strip_ends|].
  split; [intros Hsp; by rewrite strip_all_spaces, app_nil_r|].
  unfold read_xml_file_contents, open_read_text. split.
  - intros Hnul%fixtures_path_nul. by rewrite Hnul.
  - intros Hnul.
    destruct (existsb (Z.eqb 0) (FIXTURES_DIR ++ strip filename)) eqn:Hex;
      [by apply fixtures_path_nul in Hex|].
    destruct (disk (FIXTURES_DIR ++ strip filename)) as [| | |e|raw];
      [done..|].
    destruct (locale_decode raw) as [text|e] eqn:Hloc; cbn [Py.bind]; [|done].
    split; [done|]. intros Hutf. symmetry in Hutf.
    destruct (encode_decode raw text Hutf) as [Henc Hscalar].
    destruct (decode_encode _ (translate_newlines_scalar text Hscalar))
      as (out & Hout & _ & Hback).
    exists out. rewrite Hout. repeat split; try done.
    + intros Hcr. rewrite translate_newlines_no_cr in Hout; [congruence|].
      intros Hin. apply Hcr. by apply (encode_ascii_elem text raw 13).
    + intros ->. apply (encode_nil _ _ Henc), translate_newlines_nil.
      by apply (encode_nil _ _ Hout).
    + intros ->. apply (encode_nil _ _ Hout), translate_newlines_nil.
      by apply (encode_nil _ _ Henc).
Qed.

End FixtureFacts.

Lemma read_xml_file_contents_spec_witness :
  (0 ∉ Str.strip (lit " request.xml ")) /\
  Utf8.decode (lit "<CPIX/>" ++ [10]) = Utf8.decode (lit "<CPIX/>" ++ [10]) /\
  exists out,
    read_xml_file_contents Utf8.decode Sample.disk (lit " request.xml ")
    = Ok out /\
    Utf8.decode out = Ok (Str.translate_newlines (lit "<CPIX/>" ++ [10])) /\
    (13 ∉ lit "<CPIX/>" ++ [10] -> out = lit "<CPIX/>" ++ [10]) /\
    (out = [] <-> lit "<CPIX/>" ++ [10] = []).
Proof.
  assert (0 ∉ Str.strip (lit " request.xml ")) as Hnul.
  { apply (bool_decide_unpack _). vm_compute. exact I. }
  split; [exact Hnul|]. split; [reflexivity|].
  destruct (read_xml_file_contents_spec Utf8.decode Sample.disk
              (lit " request.xml ")) as (_ & _ & _ & _ & _ & Hread).
  exact (proj2 (Hread Hnul) eq_refl).
Defined.

(** The claim as the specification words it fails: an existing, readable
    but empty fixture is returned as empty bytes, and a fixture with
    Windows line ends is not returned as it is on disk. *)
Lemma read_xml_file_contents_empty_or_crlf :
  Sample.disk (FIXTURES_DIR ++ Str.strip (lit " empty.xml ")) = Regular [] /\
  read_xml_file_contents Utf8.decode Sample.disk (lit " empty.xml ") = Ok [] /\
  Sample.disk (FIXTURES_DIR ++ Str.strip (lit "crlf.xml"))
  = Regular (lit "<CPIX/>" ++ [13; 10]) /\
  read_xml_file_contents Utf8.decode Sample.disk (lit "crlf.xml")
  = Ok (lit "<CPIX/>" ++ [10]) /\
  lit "<CPIX/>" ++ [10] <> lit "<CPIX/>" ++ [13; 10].
Proof. repeat split; try (vm_compute; reflexivity). discriminate. Qed.

(** ** Evaluations

    The model run on concrete inputs; the expected values are those of
    the Python functions. *)

Example b64decode_skips_foreign_bytes :
  Base64.b64decode (lit "a!Gk=") = Ok (lit "hi") /\
  Base64.b64decode (lit "!!!!") = Ok [] /\
  Base64.b64decode (lit "=aGk=") = Ok (lit "hi").
Proof. repeat split. Qed.

Example b64decode_stops_at_padding :
  Base64.b64decode (lit "aGk=garbage") = Ok (lit "hi") /\
  Base64.b64decode (lit "YQ==YQ==") = Ok (lit "a") /\
  Base64.b64decode (lit "YQ=x=") = Ok [97; 12].
Proof. repeat split. Qed.

Example b64decode_incomplete_quad :
  Base64.b64decode (lit "aGk") = Raise binascii_Error /\
  Base64.b64decode (lit "a") = Raise binascii_Error /\
  Base64.b64decode (lit "a===") = Raise binascii_Error /\
  Base64.b64decode (lit "YQ=") = Raise binascii_Error.
Proof. repeat split. Qed.

Example lenient_base64_cases :
  Base64.lenient_base64 (lit "a!Gk=") /\
  Base64.lenient_base64 (lit "YQ=x=") /\
  Base64.lenient_base64 (lit "aGk=garbage") /\
  ~ Base64.lenient_base64 (lit "aGk") /\
  ~ Base64.lenient_base64 (lit "YQ=") /\
  ~ Base64.lenient_base64 (lit "a===").
Proof.
  repeat split;
    try (by apply b64decode_returns);
    intros Hyes%b64decode_returns; discriminate.
Qed.

Example valid_utf8_cases :
  Utf8.valid_utf8 [104; 195; 169] /\
  ~ Utf8.valid_utf8 [192; 128] /\
  ~ Utf8.valid_utf8 [237; 160; 128] /\
  ~ Utf8.valid_utf8 [226; 130].
Proof.
  repeat split;
    try (apply valid_utf8_decode; by eexists);
    intros [text Hdec]%valid_utf8_decode; discriminate.
Qed.

Example b64encode_padding :
  Base64.b64encode (lit "hi") = lit "aGk=" /\
  Base64.b64encode (lit "a") = lit "YQ==" /\
  Base64.b64encode (lit "hi!") = lit "aGkh".
Proof. repeat split. Qed.

Example utf8_encode_lengths :
  Utf8.encode [104; 233; 8364; 128512]
  = Ok [104; 195; 169; 226; 130; 172; 240; 159; 152; 128] /\
  Utf8.encode [55296] = Raise UnicodeEncodeError.
Proof. repeat split. Qed.

Example utf8_decode_rejects :
  Utf8.decode [192; 128] = Raise UnicodeDecodeError /\
  Utf8.decode [237; 160; 128] = Raise UnicodeDecodeError /\
  Utf8.decode [244; 144; 128; 128] = Raise UnicodeDecodeError /\
  Utf8.decode [226; 130] = Raise UnicodeDecodeError /\
  Utf8.decode [128] = Raise UnicodeDecodeError.
Proof. repeat split. Qed.

Example replace_every_occurrence :
  Str.replace (lit "aXXbXXXXc") (lit "XX") (lit "y") = lit "aybyyc" /\
  Str.replace (lit "aaa") (lit "aa") (lit "b") = lit "ba" /\
  Str.replace (lit "abc") [] (lit "-") = lit "-a-b-c-" /\
  Str.replace_first (lit "aXXbXXXXc") (lit "XX") (lit "y") = lit "aybXXXXc".
Proof. repeat split. Qed.

Example strip_both_ends :
  Str.strip ([32; 9] ++ lit "a b.xml" ++ [13; 10]) = lit "a b.xml" /\
  Str.strip (lit "   ") = [].
Proof. repeat split. Qed.

Example translate_newlines_line_ends :
  Str.translate_newlines [97; 13; 10; 98; 13; 99; 10; 13] =
  [97; 10; 98; 10; 99; 10; 10].
Proof. reflexivity. Qed.

(** [re.match] is anchored at the start only, and [.+] is greedy. *)
Example re_match_api_gateway_hosts :
  Re.re_match API_GATEWAY_PATTERN Sample.host
  = Some {| Re.after := []; Re.group1 := Some (lit "us-east-1") |} /\
  Re.re_match API_GATEWAY_PATTERN
    (lit "abc.execute-api.us-east-1.amazonaws.com:443")
  = Some {| Re.after := lit ":443"; Re.group1 := Some (lit "us-east-1") |} /\
  Re.re_match API_GATEWAY_PATTERN
    (lit "abc.execute-api.x.amazonaws.com.y.amazonaws.com")
  = Some {| Re.after := []; Re.group1 := Some (lit "x.amazonaws.com.y") |} /\
  Re.re_match API_GATEWAY_PATTERN
    (lit "ABC.execute-api.us-east-1.amazonaws.com") = None /\
  Re.re_match API_GATEWAY_PATTERN
    (lit "user@abc.execute-api.us-east-1.amazonaws.com") = None /\
  Re.re_match API_GATEWAY_PATTERN (lit "abc.execute-api..amazonaws.com") = None /\
  Re.re_match API_GATEWAY_PATTERN (lit "speke.example.com") = None.
Proof. repeat split. Qed.

Example get_aws_auth_other_host :
  get_aws_auth
    (fun _ => Ok {| scheme := lit "https"; netloc := lit "speke.example.com";
                    path := []; params := []; query := []; fragment := [] |})
    (Ok Sample.credentials) (lit "https://speke.example.com")
  = Raise AttributeError.
Proof. reflexivity. Qed.

(** Two children that change places between the lines of a printed
    document: the elements keep their tags, the tails stay in place. *)
Example count_tags_printed :
  count_tags Cases.iterparse_printed Cases.printed_xml
  = count_tags Cases.iterparse_printed Cases.printed_swapped_xml /\
  Cases.printed <> Cases.printed_swapped.
Proof. split; [vm_compute; reflexivity | discriminate]. Qed.

Example count_tags_sample :
  exists d,
    count_tags Sample.iterparse Sample.cpix_xml = Ok d /\
    d !! lit "CPIX" = Some 1 /\
    d !! lit "ContentKeyList" = Some 1 /\
    d !! lit "ContentKey" = Some 2 /\
    d !! lit "DRMSystemList" = Some 1 /\
    d !! lit "DRMSystem" = Some 1 /\
    d !! lit "PSSH" = None /\
    sum_of_counts d = 6.
Proof.
  eexists. split; [reflexivity|]. repeat split; vm_compute; reflexivity.
Qed.

Example count_tags_malformed :
  count_tags Sample.iterparse (lit "<CPIX>") = Raise ParseError.
Proof. reflexivity. Qed.

(** Only the two lists are children of the root: the keys and systems
    below them, and the root itself, are not counted. *)
Example count_child_element_tags_sample :
  count_child_element_tags_for_element Sample.cpix !! lit "ContentKeyList"
  = Some 1 /\
  count_child_element_tags_for_element Sample.cpix !! lit "DRMSystemList"
  = Some 1 /\
  count_child_element_tags_for_element Sample.cpix !! lit "ContentKey" = None /\
  count_child_element_tags_for_element Sample.cpix !! lit "CPIX" = None /\
  count_child_element_tags_for_element Sample.content_keys !! lit "ContentKey"
  = Some 2.
Proof. repeat split; vm_compute; reflexivity. Qed.

Example read_xml_file_contents_missing :
  read_xml_file_contents Utf8.decode Sample.disk (lit "no_such_file.xml")
  = Raise FileNotFoundError.
Proof. reflexivity. Qed.

(** An empty name and a name of white space name the fixtures directory
    itself; a name with a NUL character is refused. *)
Example read_xml_file_contents_not_a_file :
  read_xml_file_contents Utf8.decode Sample.disk [] = Raise IsADirectoryError /\
  read_xml_file_contents Utf8.decode Sample.disk (lit "   ")
  = Raise IsADirectoryError /\
  read_xml_file_contents Utf8.decode Sample.disk (lit "request.xml" ++ [0])
  = Raise ValueError.
Proof. repeat split. Qed.

(** * Further properties of the helpers *)

(** ** The signed request sender *)

(** X2.  When [get_aws_auth] returns, the URL was parsed, the credentials
    were resolved, and the network location starts with
    [<id>.execute-api.<region>.amazonaws.com].  The auth object carries
    the credentials, the whole network location as host (a port or any
    other text after [.amazonaws.com] included), the service name
    [execute-api] and, as region, the longest text the pattern allows:
    no other way of reading the location gives a longer region. *)
Theorem get_aws_auth_returns
    (urlparse : str -> result ParseResult)
    (get_credentials : result Credentials)
    (url : str) (auth : AWSRequestsAuth) :
  get_aws_auth urlparse get_credentials url = Ok auth ->
  exists parsed creds id region rest,
    urlparse url = Ok parsed /\ get_credentials = Ok creds /\
    netloc parsed
    = id ++ lit ".execute-api." ++ region ++ lit ".amazonaws.com" ++ rest /\
    id <> [] /\ forallb Re.lower_or_digit id = true /\
    region <> [] /\ forallb Re.dot region = true /\
    auth = {| aws_access_key := cred_access_key creds;
              aws_secret_access_key := cred_secret_access_key creds;
              aws_token := cred_token creds;
              aws_host := netloc parsed;
              aws_region := Some region;
              aws_service := lit "execute-api" |} /\
    forall id' region' rest',
      netloc parsed
      = id' ++ lit ".execute-api." ++ region' ++ lit ".amazonaws.com" ++ rest' ->
      forallb Re.lower_or_digit id' = true ->
      forallb Re.dot region' = true ->
      id' = id /\ (length region' <= length region)%nat.
Proof.
  unfold get_aws_auth.
  intros (parsed & Hparse & Hrest)%bind_Ok_inv.
  destruct (Re.re_match API_GATEWAY_PATTERN (netloc parsed)) as [m|] eqn:Hm;
    [|done].
  apply bind_Ok_inv in Hrest as (creds & Hcreds & [= <-]).
  apply re_match_greedy in Hm
    as (id & region & Hhost & Hid & Fid & Hreg & Freg & Hgroup & Hmax).
  exists parsed, creds, id, region, (Re.after m).
  rewrite Hgroup. do 8 (split; [done|]). exact Hmax.
Qed.

(** X3.  A network location that does not start with a lower-case
    letter or a digit, or that contains [.execute-api.] nowhere, or
    [.amazonaws.com] nowhere, makes [get_aws_auth] raise
    [AttributeError]: a service behind a domain of its own cannot be
    signed for. *)
Theorem get_aws_auth_other_domain
    (urlparse : str -> result ParseResult)
    (get_credentials : result Credentials)
    (url : str) (parsed : ParseResult) :
  urlparse url = Ok parsed ->
  match netloc parsed with
  | c :: _ => Re.lower_or_digit c = false
  | [] => True
  end \/
  Str.contains (netloc parsed) (lit ".execute-api.") = false \/
  Str.contains (netloc parsed) (lit ".amazonaws.com") = false ->
  get_aws_auth urlparse get_credentials url = Raise AttributeError.
Proof.
  intros Hparse Hno. unfold get_aws_auth. rewrite Hparse. cbn [Py.bind].
  assert (Re.re_match API_GATEWAY_PATTERN (netloc parsed) = None) as ->; [|done].
  apply re_match_None. intros (id & region & rest & Hhost & Hid & Fid & _).
  destruct Hno as [Hno|[Hno|Hno]].
  - rewrite Hhost in Hno. destruct id as [|c id]; [done|].
    simpl in Hno, Fid. apply andb_true_iff in Fid as [Hc _]. congruence.
  - apply not_true_iff_false in Hno. apply Hno, contains_spec. rewrite Hhost.
    by exists id, (region ++ lit ".amazonaws.com" ++ rest).
  - apply not_true_iff_false in Hno. apply Hno, contains_spec. rewrite Hhost.
    exists (id ++ lit ".execute-api." ++ region), rest.
    by rewrite <- !app_assoc.
Qed.

Section Sender.

Variable urlparse : str -> result ParseResult.
Variable get_credentials : result Credentials.
Variable Response : Type.
Variable requests_post :
  str -> AWSRequestsAuth -> bytes -> list (str * str) -> result Response.

(** X1.  [speke_v2_request] sends nothing when the pattern does not
    match the network location ([AttributeError]) or when the
    credentials cannot be resolved (the resolver's error), whatever the
    HTTP client would do.  When it returns a response, that response is
    what the HTTP client returned for this URL and body, the fixed
    SPEKE v2 headers, and the auth object of [get_aws_auth], whose host
    is the network location and whose service is [execute-api]. *)
Theorem speke_v2_request_signed (speke_url : str) (request_data : bytes)
    (parsed : ParseResult) :
  urlparse speke_url = Ok parsed ->
  (~ matches_at_start (netloc parsed) ->
   speke_v2_request urlparse get_credentials Response requests_post
     speke_url request_data = Raise AttributeError) /\
  (forall e, get_credentials = Raise e ->
     matches_at_start (netloc parsed) ->
     speke_v2_request urlparse get_credentials Response requests_post
       speke_url request_data = Raise e) /\
  (forall response,
     speke_v2_request urlparse get_credentials Response requests_post
       speke_url request_data = Ok response ->
     exists auth,
       get_aws_auth urlparse get_credentials speke_url = Ok auth /\
       aws_host auth = netloc parsed /\
       aws_service auth = lit "execute-api" /\
       requests_post speke_url auth request_data
         [ (lit "x-speke-version", lit "2.0");
           (lit "Content-type", lit "application/xml") ] = Ok response).
Proof.
  intros Hparse. unfold speke_v2_request, get_aws_auth.
  rewrite Hparse. cbn [Py.bind]. split; [|split].
  - intros Hno. apply re_match_None in Hno. by rewrite Hno.
  - intros e He [m Hm]%re_match_complete. by rewrite Hm, He.
  - intros response.
    destruct (Re.re_match API_GATEWAY_PATTERN (netloc parsed)) as [m|]; [|done].
    destruct get_credentials as [creds|e]; [|done]. cbn [Py.bind].
    intros Hpost. eexists. split; [reflexivity|]. by repeat split.
Qed.

End Sender.

Lemma speke_v2_request_signed_witness :
  (~ matches_at_start Cases.port_host ->
   speke_v2_request Cases.urlparse (Ok Sample.credentials) (Z * bytes)
     Cases.post Cases.port_url (lit "<CPIX/>") = Raise AttributeError) /\
  (forall e, Ok Sample.credentials = Raise e ->
     matches_at_start Cases.port_host ->
     speke_v2_request Cases.urlparse (Ok Sample.credentials) (Z * bytes)
       Cases.post Cases.port_url (lit "<CPIX/>") = Raise e) /\
  (forall response,
     speke_v2_request Cases.urlparse (Ok Sample.credentials) (Z * bytes)
       Cases.post Cases.port_url (lit "<CPIX/>") = Ok response ->
     exists auth,
       get_aws_auth Cases.urlparse (Ok Sample.credentials) Cases.port_url
       = Ok auth /\
       aws_host auth = Cases.port_host /\
       aws_service auth = lit "execute-api" /\
       Cases.post Cases.port_url auth (lit "<CPIX/>")
         [ (lit "x-speke-version", lit "2.0");
           (lit "Content-type", lit "application/xml") ] = Ok response).
Proof.
  exact (speke_v2_request_signed Cases.urlparse (Ok Sample.credentials)
           (Z * bytes)%type Cases.post Cases.port_url (lit "<CPIX/>")
           _ eq_refl).
Defined.

Lemma get_aws_auth_returns_witness :
  exists parsed creds id region rest,
    Cases.urlparse Cases.port_url = Ok parsed /\
    Ok Sample.credentials = Ok creds /\
    netloc parsed
    = id ++ lit ".execute-api." ++ region ++ lit ".amazonaws.com" ++ rest /\
    id <> [] /\ forallb Re.lower_or_digit id = true /\
    region <> [] /\ forallb Re.dot region = true /\
    {| aws_access_key := lit "AKIDEXAMPLE";
       aws_secret_access_key := lit "wJalrXUtnFEMI";
       aws_token := None;
       aws_host := Cases.port_host;
       aws_region := Some (lit "us-east-1");
       aws_service := lit "execute-api" |}
    = {| aws_access_key := cred_access_key creds;
         aws_secret_access_key := cred_secret_access_key creds;
         aws_token := cred_token creds;
         aws_host := netloc parsed;
         aws_region := Some region;
         aws_service := lit "execute-api" |} /\
    forall id' region' rest',
      netloc parsed
      = id' ++ lit ".execute-api." ++ region' ++ lit ".amazonaws.com" ++ rest' ->
      forallb Re.lower_or_digit id' = true ->
      forallb Re.dot region' = true ->
      id' = id /\ (length region' <= length region)%nat.
Proof.
  apply (get_aws_auth_returns Cases.urlparse (Ok Sample.credentials)
           Cases.port_url).
  reflexivity.
Defined.

Lemma get_aws_auth_other_domain_witness :
  get_aws_auth Cases.urlparse (Ok Sample.credentials) Cases.other_url
  = Raise AttributeError.
Proof.
  apply (get_aws_auth_other_domain Cases.urlparse (Ok Sample.credentials)
           Cases.other_url _ eq_refl).
  right. left. reflexivity.
Defined.

(** ** The HLS tag decoder *)

Section CleanRewrite.

Import Str.

Variables (h : codepoint) (old' new' : str).
Hypothesis Hh_old : h ∉ old'.
Hypothesis Hh_new : h ∉ new'.
Hypothesis Hdiff : forall r, startswith ((h :: new') ++ r) (h :: old') = false.

Local Abbreviation old := (h :: old').
Local Abbreviation new := (h :: new').

Lemma startswith_head c s : c <> h -> startswith (c :: s) old = false.
Proof.
  intros Hc. unfold startswith. cbn [strip_prefix].
  destruct (Z.eqb_spec h c); [congruence|done].
Qed.

(** Up to its first [h], the rewritten text is the text itself. *)
Lemma copied_prefix u s r :
  h ∉ u -> replace_scan old new s 0 = u ++ r -> exists r', s = u ++ r'.
Proof.
  revert s r. induction u as [|x u IH]; intros s r Hu Heq; [by exists s|].
  apply not_elem_of_cons in Hu as [Hx Hu].
  destruct s as [|c s]; [discriminate|].
  cbn [replace_scan] in Heq. destruct (startswith (c :: s) old).
  - injection Heq as Hhx _. congruence.
  - injection Heq as -> Heq. destruct (IH s r Hu Heq) as [r' ->]. by exists r'.
Qed.

Lemma contains_cons c s sub :
  contains (c :: s) sub = startswith (c :: s) sub || contains s sub.
Proof. reflexivity. Qed.

Lemma contains_after_new_tail w R :
  h ∉ w -> contains R old = false -> contains (w ++ R) old = false.
Proof.
  induction w as [|y w IH]; intros Hw HR; [done|].
  apply not_elem_of_cons in Hw as [Hy Hw].
  cbn [app]. rewrite contains_cons, startswith_head by done.
  by apply IH.
Qed.

Lemma contains_after_new R :
  contains R old = false -> contains (new ++ R) old = false.
Proof.
  intros HR. cbn [app]. rewrite contains_cons.
  change (h :: new' ++ R) with (new ++ R). rewrite Hdiff. cbn [orb].
  by apply contains_after_new_tail.
Qed.

(** No occurrence of [old] is left in the rewritten text. *)
Lemma replace_scan_clean s :
  contains (replace_scan old new s 0) old = false.
Proof.
  remember (length s) as n eqn:Hn. revert s Hn.
  induction n as [n IH] using lt_wf_ind. intros [|c s] Hn; [done|].
  destruct (startswith (c :: s) old) eqn:E.
  - apply startswith_spec in E as [rest Hrest]. rewrite Hrest.
    rewrite (replace_scan_hit old new h old' rest eq_refl).
    apply contains_after_new. apply (IH (length rest)); [|done].
    rewrite Hn, Hrest. simpl. rewrite length_app. lia.
  - rewrite replace_scan_miss by done. rewrite contains_cons.
    rewrite (IH (length s)); [|rewrite Hn; simpl; lia|done].
    rewrite orb_false_r. apply not_true_is_false.
    intros [q Hq]%startswith_spec. injection Hq as -> Hq.
    destruct (copied_prefix old' s q Hh_old Hq) as [r' ->].
    apply not_true_iff_false in E. apply E, startswith_spec. by exists r'.
Qed.

End CleanRewrite.

Section Hls.

Variable Playlist : Type.
Variable m3u8_loads : str -> result Playlist.

Lemma session_rewrite_clean text :
  Str.contains (Str.replace text SESSION_KEY_METHOD KEY_METHOD)
               SESSION_KEY_METHOD = false.
Proof.
  apply (replace_scan_clean 35 (lit "EXT-X-SESSION-KEY:METHOD")
           (lit "EXT-X-KEY:METHOD")).
  - apply (bool_decide_unpack _). vm_compute. exact I.
  - apply (bool_decide_unpack _). vm_compute. exact I.
  - reflexivity.
Qed.

(** X7.  Whatever the payload decodes to, the text
    [parse_ext_x_session_key_contents] hands to the parser contains
    [#EXT-X-SESSION-KEY:METHOD] nowhere.  That text has a UTF-8
    encoding; on its base64 form [parse_ext_x_key_contents] gives the
    same result, and so does [parse_ext_x_session_key_contents] itself:
    rewriting twice changes nothing. *)
Theorem session_key_tag_never_parsed (text_in_bytes : bytes) (text : str) :
  decode_b64_bytes text_in_bytes = Ok text ->
  Str.contains (Str.replace text SESSION_KEY_METHOD KEY_METHOD)
               SESSION_KEY_METHOD = false /\
  exists raw,
    Utf8.encode (Str.replace text SESSION_KEY_METHOD KEY_METHOD) = Ok raw /\
    parse_ext_x_session_key_contents Playlist m3u8_loads text_in_bytes
    = parse_ext_x_key_contents Playlist m3u8_loads (Base64.b64encode raw) /\
    parse_ext_x_session_key_contents Playlist m3u8_loads (Base64.b64encode raw)
    = parse_ext_x_session_key_contents Playlist m3u8_loads text_in_bytes.
Proof.
  intros Hdec.
  pose proof (session_rewrite_clean text) as Hclean.
  split; [exact Hclean|].
  set (rewritten := Str.replace text SESSION_KEY_METHOD KEY_METHOD) in *.
  assert (Forall Utf8.scalar_value rewritten) as Hscalar.
  { apply replace_scan_Forall.
    - unfold decode_b64_bytes in Hdec.
      apply bind_Ok_inv in Hdec as (raw & _ & Hraw).
      by apply (encode_decode raw).
    - let l := eval vm_compute in KEY_METHOD in change KEY_METHOD with l.
      repeat (constructor; [unfold Utf8.scalar_value; lia|]).
      constructor. }
  destruct (decode_encode rewritten Hscalar) as (raw & Henc & _ & _).
  exists raw.
  unfold parse_ext_x_session_key_contents, parse_ext_x_key_contents.
  rewrite Hdec, (decode_b64_bytes_of_text _ _ Henc). cbn [Py.bind].
  fold rewritten.
  rewrite (replace_no_occurrence rewritten SESSION_KEY_METHOD KEY_METHOD)
    by done.
  by repeat split.
Qed.

(** X8.  On a payload whose text contains [#EXT-X-SESSION-KEY:METHOD]
    nowhere, [parse_ext_x_session_key_contents] and
    [parse_ext_x_key_contents] return the same. *)
Theorem parsers_agree_without_session_tag (text_in_bytes : bytes) (text : str) :
  decode_b64_bytes text_in_bytes = Ok text ->
  Str.contains text SESSION_KEY_METHOD = false ->
  parse_ext_x_session_key_contents Playlist m3u8_loads text_in_bytes
  = parse_ext_x_key_contents Playlist m3u8_loads text_in_bytes.
Proof.
  intros Hdec Hno.
  unfold parse_ext_x_session_key_contents, parse_ext_x_key_contents.
  rewrite Hdec. cbn [Py.bind].
  by rewrite replace_no_occurrence.
Qed.

End Hls.

Lemma session_key_tag_never_parsed_witness :
  Str.contains (Str.replace Sample.two_tags_text SESSION_KEY_METHOD KEY_METHOD)
               SESSION_KEY_METHOD = false /\
  exists raw,
    Utf8.encode (Str.replace Sample.two_tags_text SESSION_KEY_METHOD KEY_METHOD)
    = Ok raw /\
    parse_ext_x_session_key_contents str Sample.echo Sample.two_tags_payload
    = parse_ext_x_key_contents str Sample.echo (Base64.b64encode raw) /\
    parse_ext_x_session_key_contents str Sample.echo (Base64.b64encode raw)
    = parse_ext_x_session_key_contents str Sample.echo Sample.two_tags_payload.
Proof.
  apply session_key_tag_never_parsed. vm_compute. reflexivity.
Defined.

Lemma parsers_agree_without_session_tag_witness :
  parse_ext_x_session_key_contents str Sample.echo Cases.key_payload
  = parse_ext_x_key_contents str Sample.echo Cases.key_payload.
Proof.
  apply (parsers_agree_without_session_tag str Sample.echo Cases.key_payload
           (lit "#EXT-X-KEY:METHOD=NONE")); vm_compute; reflexivity.
Defined.

(** ** Base64 payloads *)

Section Base64More.

Import Base64.

(** After an encoding that ends in padding the decoder reads no
    further. *)
Lemma b64decode_padded_then data junk :
  Forall is_byte data -> (length data mod 3 <> 0)%nat ->
  b64decode (b64encode data ++ junk) = Ok data.
Proof.
  unfold b64decode. induction data as [|a|a b|a b c l IH] using list_ind3;
    intros HF Hlen.
  - done.
  - inversion_clear HF as [|? ? Ha _].
    pose proof (sextet_ranges a 0 0 Ha is_byte_0 is_byte_0) as (R0 & R1 & _).
    pose proof (first_byte a 0 Ha is_byte_0) as B1.
    change (Z.shiftr 0 4) with 0 in *. rewrite Z.lor_0_r in *.
    cbn [b64encode app]. rewrite !a2b_base64_char by assumption.
    rewrite B1. reflexivity.
  - inversion_clear HF as [|? ? Ha HF']. inversion_clear HF' as [|? ? Hb _].
    pose proof (sextet_ranges a b 0 Ha Hb is_byte_0) as (R0 & R1 & R2 & _).
    pose proof (first_byte a b Ha Hb) as B1.
    pose proof (second_byte a b 0 Ha Hb is_byte_0) as B2.
    change (Z.shiftr 0 6) with 0 in *. rewrite Z.lor_0_r in *.
    cbn [b64encode app]. rewrite !a2b_base64_char by assumption.
    rewrite B1, B2. reflexivity.
  - inversion_clear HF as [|? ? Ha HF']. inversion_clear HF' as [|? ? Hb HF].
    inversion_clear HF as [|? ? Hc HF'].
    pose proof (sextet_ranges a b c Ha Hb Hc) as (R0 & R1 & R2 & R3).
    cbn [b64encode app]. rewrite !a2b_base64_char by assumption.
    rewrite (first_byte a b Ha Hb), (second_byte a b c Ha Hb Hc),
      (third_byte b c Hb Hc), IH; [reflexivity | assumption |].
    cbn [length] in Hlen.
    replace (S (S (S (length l)))) with (length l + 1 * 3)%nat in Hlen by lia.
    by rewrite Nat.Div0.mod_add in Hlen.
Qed.

(** After an encoding without padding the decoder reads on. *)
Lemma b64decode_unpadded_then data more :
  Forall is_byte data -> (length data mod 3 = 0)%nat ->
  b64decode (b64encode data ++ more) = rmap (app data) (b64decode more).
Proof.
  unfold b64decode. induction data as [|a|a b|a b c l IH] using list_ind3;
    intros HF Hlen.
  - cbn [b64encode app]. by destruct (a2b_base64 more Q0 0 0).
  - discriminate.
  - discriminate.
  - inversion_clear HF as [|? ? Ha HF']. inversion_clear HF' as [|? ? Hb HF].
    inversion_clear HF as [|? ? Hc HF'].
    pose proof (sextet_ranges a b c Ha Hb Hc) as (R0 & R1 & R2 & R3).
    cbn [b64encode app]. rewrite !a2b_base64_char by assumption.
    rewrite (first_byte a b Ha Hb), (second_byte a b c Ha Hb Hc),
      (third_byte b c Hb Hc), IH.
    + by destruct (a2b_base64 more Q0 0 0).
    + assumption.
    + cbn [length] in Hlen.
      replace (S (S (S (length l)))) with (length l + 1 * 3)%nat in Hlen by lia.
      by rewrite Nat.Div0.mod_add in Hlen.
Qed.

(** The decoder writes bytes. *)
Lemma a2b_base64_bytes s q leftchar pads raw :
  a2b_base64 s q leftchar pads = Ok raw -> Forall is_byte raw.
Proof.
  revert q leftchar pads raw. induction s as [|ch s IH]; intros q lc p raw.
  - destruct q; simpl; [|done..]. by intros [= <-].
  - cbn [a2b_base64].
    repeat match goal with
           | |- context [if ?c then _ else _] => destruct c
           | |- context [match q with _ => _ end] => destruct q
           end;
      try (intros [= <-]; constructor);
      try apply IH;
      intros (raw' & Hraw' & ->)%rmap_Ok_inv;
      (constructor; [|by eapply IH]);
      unfold is_byte; change 255 with (2 ^ 8 - 1);
      rewrite land_low_bits by lia; apply Z.mod_pos_bound; lia.
Qed.

End Base64More.

(** X9.  When the base64 encoding of [raw] ends in padding (the length
    of [raw] is not a multiple of three), whatever follows it in the
    payload is ignored: [decode_b64_bytes] decodes [raw] alone. *)
Theorem decode_b64_bytes_stops_at_padding (raw junk : bytes) :
  Forall is_byte raw -> (length raw mod 3 <> 0)%nat ->
  decode_b64_bytes (Base64.b64encode raw ++ junk) = Utf8.decode raw.
Proof.
  intros Hb Hlen. unfold decode_b64_bytes.
  by rewrite b64decode_padded_then.
Qed.

(** X10.  When the base64 encoding of [raw] has no padding (the length
    of [raw] is a multiple of three), [decode_b64_bytes] reads on: the
    bytes decoded from what follows are appended to [raw] before the
    UTF-8 step, and an error in what follows is raised. *)
Theorem decode_b64_bytes_reads_on (raw more : bytes) :
  Forall is_byte raw -> (length raw mod 3 = 0)%nat ->
  decode_b64_bytes (Base64.b64encode raw ++ more)
  = let* rest := Base64.b64decode more in Utf8.decode (raw ++ rest).
Proof.
  intros Hb Hlen. unfold decode_b64_bytes.
  rewrite b64decode_unpadded_then by done.
  by destruct (Base64.b64decode more).
Qed.

(** X11.  A text returned by [decode_b64_bytes] is made of Unicode
    scalar values; its UTF-8 encoding is the byte string the base64
    step produced, and the standard base64 encoding of these bytes
    decodes to the same text. *)
Theorem decode_b64_bytes_result (text_in_bytes : bytes) (T : str) :
  decode_b64_bytes text_in_bytes = Ok T ->
  Forall Utf8.scalar_value T /\
  exists raw,
    Base64.b64decode text_in_bytes = Ok raw /\ Forall is_byte raw /\
    Utf8.encode T = Ok raw /\
    decode_b64_bytes (Base64.b64encode raw) = Ok T.
Proof.
  unfold decode_b64_bytes at 1.
  intros (raw & Hraw & Hdec)%bind_Ok_inv.
  destruct (encode_decode raw T Hdec) as [Henc Hscalar].
  split; [done|]. exists raw. split; [done|].
  split; [by eapply a2b_base64_bytes|]. split; [done|].
  by apply decode_b64_bytes_of_text.
Qed.

(** X12.  On a payload that is base64 in the strict sense the base64
    step does not fail: [decode_b64_bytes] is the UTF-8 decoding of the
    decoded bytes, and can only raise [UnicodeDecodeError]. *)
Theorem decode_b64_bytes_valid_base64 (text_in_bytes : bytes) :
  Base64.valid_base64 text_in_bytes = true ->
  (exists raw,
     Base64.b64decode text_in_bytes = Ok raw /\
     decode_b64_bytes text_in_bytes = Utf8.decode raw) /\
  decode_b64_bytes text_in_bytes <> Raise binascii_Error.
Proof.
  intros Hvalid%valid_base64_returns. unfold decode_b64_bytes.
  destruct (Base64.b64decode text_in_bytes) as [raw|e]; [|done].
  cbn [Py.bind]. split; [by exists raw|].
  intros Hraise. by apply decode_raises in Hraise.
Qed.

Lemma decode_b64_bytes_stops_at_padding_witness :
  decode_b64_bytes (Base64.b64encode (lit "hi") ++ lit "garbage")
  = Utf8.decode (lit "hi").
Proof.
  apply decode_b64_bytes_stops_at_padding.
  - repeat constructor; unfold is_byte; lia.
  - discriminate.
Defined.

Lemma decode_b64_bytes_reads_on_witness :
  decode_b64_bytes (Base64.b64encode (lit "abc") ++ lit "ZGVm")
  = let* rest := Base64.b64decode (lit "ZGVm") in
    Utf8.decode (lit "abc" ++ rest).
Proof.
  apply decode_b64_bytes_reads_on.
  - repeat constructor; unfold is_byte; lia.
  - reflexivity.
Defined.

Lemma decode_b64_bytes_result_witness :
  Forall Utf8.scalar_value (lit "hi") /\
  exists raw,
    Base64.b64decode (lit "a!Gk=") = Ok raw /\ Forall is_byte raw /\
    Utf8.encode (lit "hi") = Ok raw /\
    decode_b64_bytes (Base64.b64encode raw) = Ok (lit "hi").
Proof. apply decode_b64_bytes_result. reflexivity. Defined.

Lemma decode_b64_bytes_valid_base64_witness :
  (exists raw,
     Base64.b64decode (lit "aGk=") = Ok raw /\
     decode_b64_bytes (lit "aGk=") = Utf8.decode raw) /\
  decode_b64_bytes (lit "aGk=") <> Raise binascii_Error.
Proof. apply decode_b64_bytes_valid_base64. reflexivity. Defined.

(** ** The XML tag counter *)

Lemma occurrences_cons t x xs :
  occurrences t (x :: xs) = (if decide (t = x) then 1 else 0) + occurrences t xs.
Proof.
  change (x :: xs) with ([x] ++ xs).
  by rewrite occurrences_app, occurrences_singleton.
Qed.

(** Lists with the same number of occurrences of every tag are
    permutations of each other. *)
Lemma occurrences_ext_Permutation (xs ys : list str) :
  (forall t, occurrences t xs = occurrences t ys) -> xs ≡ₚ ys.
Proof.
  revert ys. induction xs as [|x xs IH]; intros ys Hocc.
  - destruct ys as [|y ys]; [done|].
    specialize (Hocc y). rewrite occurrences_cons in Hocc.
    pose proof (occurrences_nonneg y ys). unfold occurrences in Hocc at 1.
    simpl in Hocc. case_decide; [lia|done].
  - assert (x ∈ ys) as Hin.
    { apply occurrences_pos_iff. rewrite <- Hocc, occurrences_cons.
      pose proof (occurrences_nonneg x xs). case_decide; [lia|done]. }
    apply elem_of_Permutation in Hin as [ys' Hys].
    rewrite Hys. constructor. apply IH. intros t.
    specialize (Hocc t).
    rewrite (occurrences_Permutation t ys (x :: ys') Hys) in Hocc.
    rewrite !occurrences_cons in Hocc. lia.
Qed.

Lemma Counter_inj (xs ys : list str) : Counter xs = Counter ys -> xs ≡ₚ ys.
Proof.
  intros Heq. apply occurrences_ext_Permutation. intros t.
  by rewrite <- !count_of_Counter, Heq.
Qed.

(** X5.  Two well-formed documents get the same table from [count_tags]
    exactly when their tags, taken with their multiplicities, are the
    same: the table determines the tags of the document up to order. *)
Theorem count_tags_same_table_iff
    (iterparse : str -> result (list ParseItem))
    (xml1 xml2 : str) (root1 root2 : Element) :
  document iterparse xml1 root1 ->
  document iterparse xml2 root2 ->
  count_tags iterparse xml1 = count_tags iterparse xml2 <->
  tags_of root1 ≡ₚ tags_of root2.
Proof.
  intros H1 H2.
  rewrite (count_tags_document _ _ _ H1), (count_tags_document _ _ _ H2).
  split.
  - intros [= Heq]. by apply Counter_inj.
  - intros Hp. f_equal. by apply Counter_Permutation.
Qed.

(** X4.  [count_tags] counts what the parser yields: whether an item is
    an (event, element) pair or a bare element, and whatever the event
    is, the count of a tag is the number of yielded items whose element
    carries it, the keys are the tags of these elements, and the counts
    add up to the number of items. *)
Theorem count_tags_counts_items
    (iterparse : str -> result (list ParseItem))
    (xml_content : str) (items : list ParseItem) :
  iterparse xml_content = Ok items ->
  exists d,
    count_tags iterparse xml_content = Ok d /\
    (forall t,
       count_of d t
       = occurrences t (map (fun it => tag (item_element it)) items)) /\
    (forall t, is_Some (d !! t) <-> exists it, it ∈ items /\ tag (item_element it) = t) /\
    sum_of_counts d = Z.of_nat (length items).
Proof.
  intros Hit. unfold count_tags. rewrite Hit. cbn [Py.bind].
  rewrite dict_zip_keys_values.
  assert (map (fun element => match element with
                              | Pair _ ele => tag ele
                              | Bare element0 => tag element0
                              end) items
          = map (fun it => tag (item_element it)) items) as ->.
  { apply map_ext. by intros []. }
  eexists. split; [reflexivity|]. split; [|split].
  - intros t. apply count_of_Counter.
  - intros t. rewrite Counter_lookup.
    pose proof (occurrences_pos_iff t (map (fun it => tag (item_element it)) items)) as Hpos.
    pose proof (occurrences_nonneg t (map (fun it => tag (item_element it)) items)).
    rewrite list_elem_of_fmap in Hpos. split.
    + intros [v Hv]. case_decide; [done|].
      destruct Hpos as [Hpos _]. destruct Hpos as (it & -> & Hin); [lia|]. eauto.
    + intros (it & Hin & <-). case_decide; [|eauto].
      destruct Hpos as [_ Hpos]. specialize (Hpos (ex_intro _ it (conj eq_refl Hin))). lia.
  - by rewrite sum_of_counts_Counter, length_map.
Qed.

(** The count of a tag over a tree: one for the root when it carries the
    tag, and what each element's children contribute. *)
Lemma occurrences_tags_of_children t e :
  occurrences t (tags_of e) =
  (if decide (t = tag e) then 1 else 0)
  + foldr Z.add 0
      (map (fun e' => occurrences t (map tag (children e'))) (end_order e)).
Proof.
  induction e as [t0 a x l cs IH] using Element_ind'.
  rewrite tags_of_unfold, occurrences_app, occurrences_singleton.
  rewrite end_order_unfold, map_app. cbn [tag children map].
  assert (forall (l1 l2 : list Z), foldr Z.add 0 (l1 ++ l2) = foldr Z.add 0 l1 + foldr Z.add 0 l2) as Hsum.
  { intros l1 l2. induction l1; simpl; lia. }
  rewrite Hsum. cbn [foldr].
  assert (occurrences t (flat_map tags_of cs)
          = occurrences t (map tag cs)
            + foldr Z.add 0
                (map (fun e' => occurrences t (map tag (children e')))
                   (flat_map end_order cs))) as ->; [|lia].
  induction IH as [|c cs' Hc _ IHcs]; [done|].
  cbn [flat_map map]. rewrite occurrences_app, occurrences_cons, map_app, Hsum.
  rewrite Hc, IHcs. lia.
Qed.

(** X6.  For a well-formed document, the count [count_tags] gives a tag
    is one for the root when the root carries the tag, plus the sum,
    over all elements of the document, of the count
    [count_child_element_tags_for_element] gives the tag at that
    element. *)
Theorem count_tags_sums_child_counts
    (iterparse : str -> result (list ParseItem))
    (xml : str) (root : Element) :
  document iterparse xml root ->
  exists d,
    count_tags iterparse xml = Ok d /\
    forall t,
      count_of d t =
      (if decide (t = tag root) then 1 else 0)
      + foldr Z.add 0
          (map (fun e => count_of (count_child_element_tags_for_element e) t)
               (end_order root)).
Proof.
  intros Hdoc. exists (Counter (tags_of root)).
  split; [by apply count_tags_document|].
  intros t. rewrite count_of_Counter, occurrences_tags_of_children.
  f_equal. f_equal. apply map_ext. intros e.
  unfold count_child_element_tags_for_element.
  by rewrite dict_zip_keys_values, count_of_Counter.
Qed.

Lemma count_tags_same_table_iff_witness :
  count_tags Sample.iterparse Sample.cpix_xml
  = count_tags Sample.iterparse Sample.cpix_swapped_xml <->
  tags_of Sample.cpix ≡ₚ tags_of Sample.cpix_swapped.
Proof.
  apply count_tags_same_table_iff; apply sample_documents.
Defined.

Lemma count_tags_counts_items_witness :
  exists d,
    count_tags Cases.iterparse_twice Sample.drm_systems_xml = Ok d /\
    (forall t,
       count_of d t
       = occurrences t
           (map (fun it => tag (item_element it))
              (flat_map (fun e => [Pair (lit "start") e; Bare e])
                 (end_order Sample.drm_systems)))) /\
    (forall t,
       is_Some (d !! t) <->
       exists it,
         it ∈ flat_map (fun e => [Pair (lit "start") e; Bare e])
                (end_order Sample.drm_systems) /\
         tag (item_element it) = t) /\
    sum_of_counts d = 4.
Proof.
  apply (count_tags_counts_items Cases.iterparse_twice Sample.drm_systems_xml).
  reflexivity.
Defined.

Lemma count_tags_sums_child_counts_witness :
  exists d,
    count_tags Sample.iterparse Sample.cpix_xml = Ok d /\
    forall t,
      count_of d t =
      (if decide (t = lit "CPIX") then 1 else 0)
      + foldr Z.add 0
          (map (fun e => count_of (count_child_element_tags_for_element e) t)
               (end_order Sample.cpix)).
Proof.
  apply (count_tags_sums_child_counts Sample.iterparse Sample.cpix_xml
           Sample.cpix).
  apply sample_documents.
Defined.

(** ** The fixture loader *)

Section FixtureMore.

Import Str Utf8.

Lemma lstrip_spaces l s : forallb isspace l = true -> lstrip (l ++ s) = lstrip s.
Proof.
  induction l as [|c l IH]; [done|]. simpl.
  intros [Hc Hl]%andb_true_iff. rewrite Hc. by apply IH.
Qed.

Lemma rstrip_spaces s r : forallb isspace r = true -> rstrip (s ++ r) = rstrip s.
Proof.
  intros Hr. unfold rstrip. rewrite rev_app_distr, lstrip_spaces; [done|].
  rewrite forallb_forall in *. intros c Hc. apply Hr. by apply in_rev.
Qed.

Lemma strip_spaces_right s r :
  forallb isspace r = true -> strip (s ++ r) = strip s.
Proof.
  intros Hr. unfold strip. induction s as [|c s IH].
  - cbn [app]. rewrite <- (app_nil_r r) at 1.
    rewrite lstrip_spaces by done. reflexivity.
  - cbn [app lstrip]. destruct (isspace c); [exact IH|].
    change (c :: s ++ r) with ((c :: s) ++ r). by apply rstrip_spaces.
Qed.

(** White space around a name does not change what [strip] returns. *)
Lemma strip_spaces l s r :
  forallb isspace l = true -> forallb isspace r = true ->
  strip (l ++ s ++ r) = strip s.
Proof.
  intros Hl Hr. unfold strip at 1. rewrite lstrip_spaces by done.
  by apply strip_spaces_right.
Qed.

(** [translate_newlines] leaves no carriage return. *)
Lemma translate_newlines_no_cr_left s : 13 ∉ translate_newlines s.
Proof.
  remember (length s) as n eqn:Hn. revert s Hn.
  induction n as [n IH] using lt_wf_ind. intros [|c s] Hn.
  - apply not_elem_of_nil.
  - cbn [translate_newlines]. destruct (Z.eqb_spec c 13).
    + destruct s as [|d s'].
      * apply not_elem_of_cons. split; [done | apply not_elem_of_nil].
      * destruct (d =? 10); apply not_elem_of_cons; (split; [done|]).
        -- apply (IH (length s')); [subst n; simpl; lia | done].
        -- apply (IH (length (d :: s'))); [subst n; simpl; lia | done].
    + apply not_elem_of_cons. split; [congruence|].
      apply (IH (length s)); [subst n; simpl; lia | done].
Qed.

(** The bytes of a character beyond ASCII are all beyond ASCII. *)
Lemma encode_char_high c bs :
  encode_char c = Ok bs -> 128 <= c -> Forall (fun b => 128 <= b) bs.
Proof.
  unfold encode_char. intros Henc Hc.
  destruct (Z.ltb_spec c 0); [lia|]. destruct (Z.ltb_spec c 128); [lia|].
  destruct (Z.ltb_spec c 2048).
  { injection Henc as <-. bits_to_arith.
    rewrite (lor_disjoint_add 3 _ 6), cont_byte by arith.
    repeat constructor; arith. }
  destruct (Z.ltb_spec c 65536).
  { destruct (in_range 55296 57343 c); [done|]. injection Henc as <-.
    bits_to_arith.
    rewrite (lor_disjoint_add 7 _ 5), !cont_byte by arith.
    repeat constructor; arith. }
  destruct (Z.ltb_spec c 1114112); [|done]. injection Henc as <-.
  bits_to_arith.
  rewrite (lor_disjoint_add 15 _ 4), !cont_byte by arith.
  repeat constructor; arith.
Qed.

(** An ASCII byte of an encoding is a character of the text. *)
Lemma encode_ascii_byte s bs b :
  encode s = Ok bs -> b < 128 -> b ∈ bs -> b ∈ s.
Proof.
  revert bs. induction s as [|c s IH]; intros bs.
  - by intros [= <-] _ ?%elem_of_nil.
  - cbn [encode].
    intros (cb & Hcb & (bs' & Hbs' & [= <-])%bind_Ok_inv)%bind_Ok_inv Hb Hin.
    apply elem_of_app in Hin as [Hin|Hin].
    + destruct (Z.lt_ge_cases c 128) as [Hlow|Hhigh].
      * unfold encode_char in Hcb.
        destruct (Z.ltb_spec c 0); [done|].
        destruct (Z.ltb_spec c 128); [|lia].
        injection Hcb as <-. apply list_elem_of_singleton in Hin as ->. left.
      * apply (encode_char_high c cb Hcb) in Hhigh.
        rewrite Forall_forall in Hhigh. apply Hhigh in Hin. lia.
    + right. by eapply IH.
Qed.

Variable locale_decode : bytes -> result str.
Variable disk : str -> FileState.

(** X13.  White space before and after a file name does not matter:
    the same file is looked up and the same result returned. *)
Theorem read_xml_file_contents_name_spaces (filename l r : str) :
  forallb isspace l = true -> forallb isspace r = true ->
  read_xml_file_contents locale_decode disk (l ++ filename ++ r)
  = read_xml_file_contents locale_decode disk filename.
Proof.
  intros Hl Hr. unfold read_xml_file_contents.
  by rewrite strip_spaces.
Qed.

(** X14.  Bytes returned by [read_xml_file_contents] never hold a
    carriage return: they are the UTF-8 encoding of a text without
    one. *)
Theorem read_xml_file_contents_no_carriage_return (filename : str) (out : bytes) :
  read_xml_file_contents locale_decode disk filename = Ok out ->
  (13 ∉ out) /\ Forall is_byte out /\
  exists text, decode out = Ok text /\ (13 ∉ text).
Proof.
  unfold read_xml_file_contents, open_read_text.
  intros (contents & Hopen & Henc)%bind_Ok_inv.
  destruct (existsb _ _); [done|].
  destruct (disk _) as [| | |e|raw]; [done..|].
  apply bind_Ok_inv in Hopen as (text & Hdec & [= <-]).
  pose proof (translate_newlines_no_cr_left text) as Hcr.
  destruct (decode_encode _ (encode_scalar _ _ Henc)) as (out' & Henc' & Hbytes & Hback).
  assert (out' = out) as -> by congruence.
  split; [|split; [done|]].
  - intros Hin. apply Hcr. by apply (encode_ascii_byte _ out 13).
  - by exists (translate_newlines text).
Qed.

End FixtureMore.

Lemma read_xml_file_contents_name_spaces_witness :
  read_xml_file_contents Utf8.decode Sample.disk
    ([32] ++ lit "request.xml" ++ [10])
  = read_xml_file_contents Utf8.decode Sample.disk (lit "request.xml").
Proof. apply read_xml_file_contents_name_spaces; reflexivity. Defined.

Lemma read_xml_file_contents_no_carriage_return_witness :
  (13 ∉ lit "<CPIX/>" ++ [10]) /\ Forall is_byte (lit "<CPIX/>" ++ [10]) /\
  exists text, Utf8.decode (lit "<CPIX/>" ++ [10]) = Ok text /\ (13 ∉ text).
Proof.
  apply (read_xml_file_contents_no_carriage_return Utf8.decode Sample.disk
           (lit "crlf.xml")).
  reflexivity.
Defined.
